(** * Windowed statistics counters (torch/csrc/monitor/counters.h)

    A shallow embedding of [Stat<T>], [IntervalStat<T>] and
    [FixedCountStat<T>] together with the properties of the aggregation
    core: window accumulation, window closing policies, event emission
    and the finalised snapshot returned by [get()].

    Conventions of the embedding.
    - [int64_t] and [uint64_t] are [Z] with the wrap-around written out
      ([wrap64], [wrapu64]).
    - The template parameter [T] is a type with an instance of [Numeric];
      the instance [Int64] is [Stat<int64_t>].
    - [std::bitset<NUM_AGGREGATIONS>] is a [Z] read with [Z.testbit].
    - [std::unordered_map] is stdpp's [gmap].
    - Member functions are state transformers over the object and the
      outside world (clocks, event sink, registry): the monad [M].
    - [mu_] is not modelled: every member function runs as one atomic
      step, which is what holding the lock for its whole body gives. *)

From Stdlib Require Import ZArith Lia Permutation.
From stdpp Require Import gmap strings list fin_maps.

Local Open Scope Z_scope.

(** ** Machine integers *)

(** Two's complement reduction to the range of [int64_t]. *)
Definition wrap64 (z : Z) : Z := (z + 2 ^ 63) mod 2 ^ 64 - 2 ^ 63.

(** Reduction to the range of [uint64_t]. *)
Definition wrapu64 (z : Z) : Z := z mod 2 ^ 64.

Definition INT64_MAX : Z := 2 ^ 63 - 1.
Definition INT64_MIN : Z := - 2 ^ 63.

Definition in_int64 (z : Z) : Prop := INT64_MIN <= z <= INT64_MAX.

(** ** Aggregations (lines 14-36) *)

Definition NUM_AGGREGATIONS : Z := 7.

Inductive Aggregation : Set :=
  | NONE | VALUE | MEAN | COUNT | SUM | MAX | MIN.

(** The enumerator values. *)
Definition Aggregation_value (a : Aggregation) : Z :=
  match a with
  | NONE => 0 | VALUE => 1 | MEAN => 2 | COUNT => 3
  | SUM => 4 | MAX => 5 | MIN => 6
  end.

Definition Aggregation_of_nat (n : nat) : Aggregation :=
  match n with
  | 0%nat => NONE | 1%nat => VALUE | 2%nat => MEAN | 3%nat => COUNT
  | 4%nat => SUM | 5%nat => MAX | _ => MIN
  end.

#[global] Instance Aggregation_eq_dec : EqDecision Aggregation.
Proof. solve_decision. Defined.

#[global] Instance Aggregation_countable : Countable Aggregation.
Proof.
  apply (inj_countable' (fun a => Z.to_nat (Aggregation_value a))
                        Aggregation_of_nat).
  intros []; reflexivity.
Defined.

Definition all_aggregations : list Aggregation :=
  [NONE; VALUE; MEAN; COUNT; SUM; MAX; MIN].

(** ** std::bitset<NUM_AGGREGATIONS> *)

Module bitset.
(** [a.set(b)] *)
Definition set (a : Z) (b : Aggregation) : Z :=
  Z.setbit a (Aggregation_value b).
(** [a.test(b)] *)
Definition test (a : Z) (b : Aggregation) : bool :=
  Z.testbit a (Aggregation_value b).
(** [a.count()] *)
Definition count (a : Z) : nat :=
  length (filter (fun b => test a b = true) all_aggregations).
End bitset.

(** [merge] (lines 46-53): the default-constructed bitset with the bit of
    every listed aggregation set. *)
Definition merge (l : list Aggregation) : Z :=
  fold_left bitset.set l 0.

(** ** The numeric parameter [T] *)

(** What the templates ask of [T]: conversion from an integer ([T x{0}],
    [emplace(COUNT, prev_.count)]), [+=], [<] and [/]. *)
Class Numeric (T : Type) := {
  T_of_int : Z -> T;
  T_add : T -> T -> T;
  T_lt : T -> T -> bool;
  T_div : T -> T -> T;
}.

(** [T = int64_t]: wrapping addition and truncating division. *)
#[global] Instance Int64 : Numeric Z := {
  T_of_int z := wrap64 z;
  T_add a b := wrap64 (a + b);
  T_lt a b := a <? b;
  T_div a b := wrap64 (Z.quot a b);
}.

(** ** Events and the outside world *)

(** Modelled from the spec: the [Event] struct of events.h, which is not
    among the sources: a type string, a message, a capture timestamp and a
    metadata mapping from strings to numeric values. *)
Record Event (T : Type) := mkEvent {
  type : string;
  message : string;
  timestamp : Z;
  metadata : gmap string T;
}.
Arguments mkEvent {T}.
Arguments type {T}.
Arguments message {T}.
Arguments timestamp {T}.
Arguments metadata {T}.

(** What a Stat does to its collaborators, in the order it does it.
    [WindowClose] is a ghost mark left by every run of [logLocked]; the
    other three are the calls to [detail::registerStat],
    [detail::unregisterStat] and [logEvent], the Stat being identified by
    its name. *)
Inductive Effect (T : Type) :=
  | RegisterStat (name : string)
  | UnregisterStat (name : string)
  | WindowClose
  | LogEvent (e : Event T).
Arguments RegisterStat {T}.
Arguments UnregisterStat {T}.
Arguments WindowClose {T}.
Arguments LogEvent {T}.

(** The world: the two clocks as the sequence of their successive
    readings with the number of readings taken so far, and the effects
    performed so far, oldest first. [steady_clock] counts in the ticks of
    the common type of [steady_clock::duration] and [milliseconds]. *)
Record World (T : Type) := mkWorld {
  steady_clock : nat -> Z;
  steady_reads : nat;
  system_clock : nat -> Z;
  system_reads : nat;
  trace : list (Effect T);
}.
Arguments mkWorld {T}.
Arguments steady_clock {T}.
Arguments steady_reads {T}.
Arguments system_clock {T}.
Arguments system_reads {T}.
Arguments trace {T}.

(** Modelled from the spec: [aggregationName] is declared at line 40 and
    defined outside the sources; it is a pure function from aggregation
    kinds to display names. *)
Class Naming := { aggregationName : Aggregation -> string }.

(** ** Member functions as state transformers *)

Definition M (T St A : Type) : Type := St -> World T -> A * St * World T.

Definition ret {T St A} (a : A) : M T St A := fun s w => (a, s, w).

Definition bind {T St A B} (m : M T St A) (k : A -> M T St B) : M T St B :=
  fun s w => let '(a, s', w') := m s w in k a s' w'.

Notation "'let!' x ':=' m 'in' k" := (bind m (fun x => k))
  (at level 10, x name, k at level 200).
Notation "'do!' m 'in' k" := (bind m (fun _ => k))
  (at level 10, k at level 200).

(** Read a field of the object. *)
Definition gets {T St A} (f : St -> A) : M T St A := fun s w => (f s, s, w).

(** Assign to the object. *)
Definition modify {T St} (f : St -> St) : M T St unit := fun s w => (tt, f s, w).

Definition emit {T St} (e : Effect T) : M T St unit :=
  fun s w =>
    (tt, s, mkWorld (steady_clock w) (steady_reads w)
                    (system_clock w) (system_reads w) (trace w ++ [e])).

(** [std::chrono::steady_clock::now().time_since_epoch()] *)
Definition steady_now {T St} : M T St Z :=
  fun s w =>
    (steady_clock w (steady_reads w), s,
     mkWorld (steady_clock w) (S (steady_reads w))
             (system_clock w) (system_reads w) (trace w)).

(** [std::chrono::system_clock::now()] *)
Definition system_now {T St} : M T St Z :=
  fun s w =>
    (system_clock w (system_reads w), s,
     mkWorld (steady_clock w) (steady_reads w)
             (system_clock w) (S (system_reads w)) (trace w)).

Definition final_state {T St A} (r : A * St * World T) : St := snd (fst r).
Definition final_world {T St A} (r : A * St * World T) : World T := snd r.
Definition result {T St A} (r : A * St * World T) : A := fst (fst r).

(** ** Stat<T> (lines 73-208) *)

Section StatCore.
Context {T : Type} {NT : Numeric T} {NM : Naming}.

(** [struct Values] (lines 76-82) *)
Record Values := mkValues {
  value : T;
  sum : T;
  min : T;
  max : T;
  count : Z;
}.

(** [Values()]: every member initialised from the literal 0. *)
Definition Values_init : Values :=
  mkValues (T_of_int 0) (T_of_int 0) (T_of_int 0) (T_of_int 0) 0.

Definition set_value (v : T) (c : Values) : Values :=
  mkValues v (sum c) (min c) (max c) (count c).
Definition set_sum (v : T) (c : Values) : Values :=
  mkValues (value c) v (min c) (max c) (count c).
Definition set_min (v : T) (c : Values) : Values :=
  mkValues (value c) (sum c) v (max c) (count c).
Definition set_max (v : T) (c : Values) : Values :=
  mkValues (value c) (sum c) (min c) v (count c).
Definition set_count (n : Z) (c : Values) : Values :=
  mkValues (value c) (sum c) (min c) (max c) n.

(** The data members of [Stat] (lines 202-207), [mu_] left out. *)
Record Stat := mkStat {
  name_ : string;
  aggregations_ : Z;
  current_ : Values;
  prev_ : Values;
}.

Definition set_current (c : Values) (s : Stat) : Stat :=
  mkStat (name_ s) (aggregations_ s) c (prev_ s).
Definition set_prev (p : Values) (s : Stat) : Stat :=
  mkStat (name_ s) (aggregations_ s) (current_ s) p.

(** [out.emplace(k, v)]: inserts unless the key is already there. *)
Definition emplace (k : Aggregation) (v : T) (out : gmap Aggregation T)
    : gmap Aggregation T :=
  match out !! k with
  | Some _ => out
  | None => <[k := v]> out
  end.

(** [Stat::getLocked] (lines 172-200). [reserve] only sizes the table. *)
Definition getLocked (s : Stat) : gmap Aggregation T :=
  let aggs := aggregations_ s in
  let p := prev_ s in
  let out : gmap Aggregation T := ∅ in
  let out := if bitset.test aggs VALUE then emplace VALUE (value p) out
             else out in
  let out := if bitset.test aggs MEAN then
               if count p =? 0 then emplace MEAN (T_of_int 0) out
               else emplace MEAN (T_div (sum p) (T_of_int (count p))) out
             else out in
  let out := if bitset.test aggs COUNT
             then emplace COUNT (T_of_int (count p)) out else out in
  let out := if bitset.test aggs SUM then emplace SUM (sum p) out
             else out in
  let out := if bitset.test aggs MAX then emplace MAX (max p) out
             else out in
  let out := if bitset.test aggs MIN then emplace MIN (min p) out
             else out in
  out.

(** The key built in the [stringstream] (lines 162-165). *)
Definition metadata_key (name : string) (agg : Aggregation) : string :=
  name +:+ "." +:+ aggregationName agg.

(** The loop of lines 161-167: [e.metadata[key] = kv.second] for every
    entry of [stats], in the iteration order of the table. *)
Definition build_metadata (name : string) (stats : gmap Aggregation T)
    : gmap string T :=
  foldl (fun md kv => <[metadata_key name (fst kv) := snd kv]> md)
        ∅ (map_to_list stats).

(** [Stat::logLocked] (lines 145-170) *)
Definition logLocked : M T Stat unit :=
  do! emit WindowClose in
  do! modify (fun s => set_prev (current_ s) s) in
  do! modify (set_current Values_init) in
  let! p := gets prev_ in
  if count p =? 0 then ret tt
  else
    let! name := gets name_ in
    let! now := system_now in
    let! stats := gets getLocked in
    let e := mkEvent "torch.monitor.Stat" name now
                     (build_metadata name stats) in
    emit (LogEvent e).

(** The constructor (lines 85-88). *)
Definition Stat_new (name : string) (aggregations : list Aggregation)
    (w : World T) : Stat * World T :=
  let s := mkStat name (merge aggregations) Values_init Values_init in
  let r := emit (RegisterStat name) s w in
  (final_state r, final_world r).

(** The destructor (lines 90-97). *)
Definition Stat_delete : M T Stat unit :=
  do! logLocked in
  let! name := gets name_ in
  emit (UnregisterStat name).

(** The body of [add] between its two calls of [maybeLogLocked]
    (lines 104-122). *)
Definition accumulate (aggs : Z) (v : T) (c : Values) : Values :=
  let c := if bitset.test aggs VALUE then set_value v c else c in
  let c := if bitset.test aggs MEAN || bitset.test aggs SUM
           then set_sum (T_add (sum c) v) c else c in
  let c := if bitset.test aggs MAX then
             if T_lt (max c) v || (count c =? 0) then set_max v c else c
           else c in
  let c := if bitset.test aggs MIN then
             if T_lt v (min c) || (count c =? 0) then set_min v c else c
           else c in
  set_count (wrap64 (count c + 1)) c.

(** [Stat::count] (lines 131-135) *)
Definition Stat_count : M T Stat Z :=
  let! c := gets current_ in ret (count c).

(** [Stat::get] (lines 137-140) *)
Definition Stat_get : M T Stat (gmap Aggregation T) :=
  gets getLocked.

(** [Stat::name] (lines 126-128) *)
Definition Stat_name : M T Stat string := gets name_.

(** *** Derived classes

    A class derived from [Stat<T>] holds the base object ([Derived])
    and overrides the pure virtual [maybeLogLocked] ([StatClass]). *)
Class Derived (D : Type) := {
  base : D -> Stat;
  set_base : Stat -> D -> D;
}.

(** Run a member function of the base class on a derived object. *)
Definition upcast {D A} {DD : Derived D} (m : M T Stat A) : M T D A :=
  fun d w => let '(a, s, w') := m (base d) w in (a, set_base s d, w').

Class StatClass (D : Type) {DD : Derived D} := {
  maybeLogLocked : M T D unit;
}.

(** [Stat::add] (lines 100-124) *)
Definition add {D} {DD : Derived D} {SC : StatClass D} (v : T) : M T D unit :=
  do! maybeLogLocked in
  do! upcast (modify (fun s =>
        set_current (accumulate (aggregations_ s) v (current_ s)) s)) in
  maybeLogLocked.

(** [IntervalStat] (lines 213-239): [windowSize_] in the ticks of
    [steady_clock]. *)
Record IntervalStat := mkIntervalStat {
  interval_base : Stat;
  windowId_ : Z;
  interval_windowSize_ : Z;
}.

(** The constructor (lines 216-220); [windowId_{0}]. *)
Definition IntervalStat_new (name : string)
    (aggregations : list Aggregation) (windowSize : Z) (w : World T)
    : IntervalStat * World T :=
  let '(s, w) := Stat_new name aggregations w in
  (mkIntervalStat s 0 windowSize, w).

(** [IntervalStat::currentWindowId] (lines 223-226): the quotient of
    the two durations, converted to [uint64_t]. The division of the code
    traps when [windowSize_] is 0, which [Z.quot] does not show: the
    properties that read a window id take a positive window size as
    their precondition. *)
Definition currentWindowId : M T IntervalStat Z :=
  let! now := steady_now in
  let! windowSize := gets interval_windowSize_ in
  ret (wrapu64 (Z.quot now windowSize)).

#[global] Instance IntervalStat_derived : Derived IntervalStat := {
  base := interval_base;
  set_base s d := mkIntervalStat s (windowId_ d) (interval_windowSize_ d);
}.

Definition set_windowId (id : Z) (d : IntervalStat) : IntervalStat :=
  mkIntervalStat (interval_base d) id (interval_windowSize_ d).

(** [IntervalStat::maybeLogLocked] (lines 229-235) *)
#[global] Instance IntervalStat_class : StatClass IntervalStat := {
  maybeLogLocked :=
    let! windowId := currentWindowId in
    let! last := gets windowId_ in
    if negb (last =? windowId) then
      do! upcast logLocked in
      modify (set_windowId windowId)
    else ret tt;
}.

(** [FixedCountStat] (lines 245-262) *)
Record FixedCountStat := mkFixedCountStat {
  fixed_base : Stat;
  fixed_windowSize_ : Z;
}.

(** The constructor (lines 248-252). *)
Definition FixedCountStat_new (name : string)
    (aggregations : list Aggregation) (windowSize : Z) (w : World T)
    : FixedCountStat * World T :=
  let '(s, w) := Stat_new name aggregations w in
  (mkFixedCountStat s windowSize, w).

#[global] Instance FixedCountStat_derived : Derived FixedCountStat := {
  base := fixed_base;
  set_base s d := mkFixedCountStat s (fixed_windowSize_ d);
}.

(** [FixedCountStat::maybeLogLocked] (lines 255-259) *)
#[global] Instance FixedCountStat_class : StatClass FixedCountStat := {
  maybeLogLocked :=
    let! c := upcast (gets current_) in
    let! windowSize := gets fixed_windowSize_ in
    if windowSize <=? count c then upcast logLocked else ret tt;
}.

(** A sequence of [add] calls, one per listed value. *)
Fixpoint add_all {D} {DD : Derived D} {SC : StatClass D} (vs : list T) : M T D unit :=
  match vs with
  | [] => ret tt
  | v :: vs => do! add v in add_all vs
  end.

End StatCore.

Arguments Values T : clear implicits.
Arguments Stat T : clear implicits.
Arguments IntervalStat T : clear implicits.
Arguments FixedCountStat T : clear implicits.
Arguments accumulate : simpl never.

(** * Properties *)

(** ** Machine integers *)

Lemma wrap64_id (z : Z) : in_int64 z -> wrap64 z = z.
Proof.
  unfold in_int64, INT64_MIN, INT64_MAX, wrap64. intros Hz.
  rewrite Z.mod_small by lia. lia.
Qed.

Lemma wrap64_succ_nonzero (c : Z) : 0 <= c <= INT64_MAX -> wrap64 (c + 1) <> 0.
Proof.
  unfold INT64_MAX. intros Hc.
  destruct (Z.eq_dec c (2 ^ 63 - 1)) as [-> | Hne].
  - vm_compute. discriminate.
  - rewrite wrap64_id; [lia | unfold in_int64, INT64_MIN, INT64_MAX; lia].
Qed.

(** Dividing by a positive count keeps a value in range. *)
Lemma quot_in_int64 (a b : Z) : in_int64 a -> 0 < b -> in_int64 (a ÷ b).
Proof.
  unfold in_int64, INT64_MIN, INT64_MAX. intros Ha Hb.
  assert (Hnn : forall x, 0 <= x -> 0 <= x ÷ b <= x).
  { intros x Hx. rewrite Z.quot_div_nonneg by lia. split.
    - apply Z.div_pos; lia.
    - apply Z.div_le_upper_bound; nia. }
  destruct (Z.le_gt_cases 0 a) as [Hpos | Hneg].
  - specialize (Hnn a Hpos). lia.
  - specialize (Hnn (- a) ltac:(lia)).
    rewrite Z.quot_opp_l in Hnn by lia. lia.
Qed.

(** ** The aggregation set *)

Lemma Aggregation_value_inj (a b : Aggregation) :
  Aggregation_value a = Aggregation_value b -> a = b.
Proof. destruct a, b; simpl; intros Heq; congruence. Qed.

Lemma Aggregation_value_nonneg (a : Aggregation) : 0 <= Aggregation_value a.
Proof. destruct a; simpl; lia. Qed.

(** Which bits a run of [set] calls leaves on. *)
Lemma testbit_fold_set (l : list Aggregation) (a n : Z) :
  Z.testbit (fold_left bitset.set l a) n
  = Z.testbit a n || existsb (fun b => Aggregation_value b =? n) l.
Proof.
  revert a. induction l as [| b l IH]; intros a; simpl.
  - now rewrite orb_false_r.
  - rewrite IH. unfold bitset.set.
    rewrite Z.setbit_eqb by apply Aggregation_value_nonneg.
    destruct (Aggregation_value b =? n), (Z.testbit a n); reflexivity.
Qed.

Lemma existsb_value_elem_of (l : list Aggregation) (k : Aggregation) :
  existsb (fun b => Aggregation_value b =? Aggregation_value k) l = true
  <-> k ∈ l.
Proof.
  induction l as [| b l IH]; simpl.
  - split; [discriminate | intros Hk; inversion Hk].
  - rewrite orb_true_iff, IH, elem_of_cons, Z.eqb_eq.
    split; intros [Hk | Hk]; auto.
    + left. symmetry. now apply Aggregation_value_inj.
    + left. now subst.
Qed.

Lemma test_merge (l : list Aggregation) (k : Aggregation) :
  bitset.test (merge l) k = true <-> k ∈ l.
Proof.
  unfold bitset.test, merge. rewrite testbit_fold_set, Z.testbit_0_l.
  simpl. apply existsb_value_elem_of.
Qed.

Lemma existsb_value_ext (l l' : list Aggregation) (n : Z) :
  (forall k, k ∈ l <-> k ∈ l') ->
  existsb (fun b => Aggregation_value b =? n) l
  = existsb (fun b => Aggregation_value b =? n) l'.
Proof.
  intros Hll'.
  apply eq_true_iff_eq. rewrite !existsb_exists.
  split; intros (b & Hb & Hn); exists b; split; auto;
    apply list_elem_of_In; apply list_elem_of_In in Hb; now apply Hll'.
Qed.

(** Lists with the same members merge to the same bitset. *)
Lemma merge_ext (l l' : list Aggregation) :
  (forall k, k ∈ l <-> k ∈ l') -> merge l = merge l'.
Proof.
  intros Hll'. apply Z.bits_inj'. intros n _.
  unfold merge. rewrite !testbit_fold_set.
  f_equal. now apply existsb_value_ext.
Qed.

(** ** Closing a window *)

Section Closing.
Context {T : Type} {NT : Numeric T} {NM : Naming}.

(** The Stat with observation [v] folded into its current window. *)
Definition observed (v : T) (s : Stat T) : Stat T :=
  set_current (accumulate (aggregations_ s) v (current_ s)) s.

(** The object after [logLocked]: the current window has become the
    previous one and a value-initialised window has taken its place. *)
Definition close_state (s : Stat T) : Stat T :=
  mkStat (name_ s) (aggregations_ s) Values_init (current_ s).

(** The event [logLocked] builds for the window it closes, captured at
    time [now]. *)
Definition close_event (s : Stat T) (now : Z) : Event T :=
  mkEvent "torch.monitor.Stat" (name_ s) now
          (build_metadata (name_ s) (getLocked (close_state s))).

(** The world after [logLocked]. *)
Definition close_world (s : Stat T) (w : World T) : World T :=
  if count (current_ s) =? 0 then
    mkWorld (steady_clock w) (steady_reads w)
            (system_clock w) (system_reads w)
            (trace w ++ [WindowClose])
  else
    mkWorld (steady_clock w) (steady_reads w)
            (system_clock w) (S (system_reads w))
            (trace w ++ [WindowClose;
                         LogEvent (close_event s
                                     (system_clock w (system_reads w)))]).

Lemma logLocked_eq (s : Stat T) (w : World T) :
  logLocked s w = (tt, close_state s, close_world s w).
Proof.
  unfold logLocked, close_world, bind, emit, modify, gets, system_now, ret.
  simpl. destruct (count (current_ s) =? 0); simpl.
  - reflexivity.
  - now rewrite <- app_assoc.
Qed.

Lemma close_world_trace (s : Stat T) (w : World T) :
  exists t, trace (close_world s w) = trace w ++ WindowClose :: t.
Proof.
  unfold close_world. destruct (count (current_ s) =? 0); simpl; eauto.
Qed.

Lemma count_accumulate (aggs : Z) (v : T) (c : Values T) :
  count (accumulate aggs v c) = wrap64 (count c + 1).
Proof.
  unfold accumulate.
  repeat match goal with |- context [if ?b then _ else _] => destruct b end;
    reflexivity.
Qed.

(** [FixedCountStat::maybeLogLocked], run. *)
Lemma fixed_maybeLogLocked_eq (d : FixedCountStat T) (w : World T) :
  maybeLogLocked d w
  = if fixed_windowSize_ d <=? count (current_ (fixed_base d))
    then (tt, mkFixedCountStat (close_state (fixed_base d))
                               (fixed_windowSize_ d),
          close_world (fixed_base d) w)
    else (tt, d, w).
Proof.
  destruct d as [s n]. simpl. unfold bind, upcast, gets, ret. simpl.
  destruct (n <=? count (current_ s)); [| reflexivity].
  now rewrite logLocked_eq.
Qed.

(** One more reading taken from the steady clock. *)
Definition steady_tick (w : World T) : World T :=
  mkWorld (steady_clock w) (S (steady_reads w))
          (system_clock w) (system_reads w) (trace w).

(** The window id [currentWindowId] computes in world [w]. *)
Definition window_id_at (d : IntervalStat T) (w : World T) : Z :=
  wrapu64 (Z.quot (steady_clock w (steady_reads w))
                  (interval_windowSize_ d)).

(** [IntervalStat::maybeLogLocked], run. *)
Lemma interval_maybeLogLocked_eq (d : IntervalStat T) (w : World T) :
  maybeLogLocked d w
  = if windowId_ d =? window_id_at d w
    then (tt, d, steady_tick w)
    else (tt, mkIntervalStat (close_state (interval_base d))
                             (window_id_at d w) (interval_windowSize_ d),
          close_world (interval_base d) (steady_tick w)).
Proof.
  destruct d as [s id n]. unfold window_id_at. simpl.
  unfold bind, currentWindowId, bind, steady_now, upcast, gets, ret. simpl.
  fold (steady_tick w).
  destruct (id =? _); simpl; [reflexivity |].
  now rewrite logLocked_eq.
Qed.

(** [add], unfolded into its three steps. *)
Lemma add_eq {D} {DD : Derived D} {SC : StatClass D} (v : T) (d : D) (w : World T) :
  add v d w
  = let r := maybeLogLocked d w in
    let d1 := final_state r in
    maybeLogLocked
      (set_base (set_current (accumulate (aggregations_ (base d1)) v
                                         (current_ (base d1)))
                             (base d1)) d1)
      (final_world r).
Proof.
  unfold add, bind, upcast, modify, final_state, final_world.
  destruct (maybeLogLocked d w) as [[[] d1] w1]. reflexivity.
Qed.

End Closing.

(** ** Window closing policies *)

Section Policies.
Context {T : Type} {NT : Numeric T} {NM : Naming}.

(** What the core expects of an override of [maybeLogLocked]: it
    either leaves the Stat and the trace alone, or it closes the window
    with [logLocked]. *)
Class ClosingPolicy (D : Type) {DD : Derived D} {SC : StatClass D}
    : Prop := {
  base_set_base : forall (s : Stat T) (d : D), base (set_base s d) = s;
  maybeLogLocked_cases : forall (d : D) (w : World T),
    (base (final_state (maybeLogLocked d w)) = base d
     /\ trace (final_world (maybeLogLocked d w)) = trace w)
    \/ (base (final_state (maybeLogLocked d w)) = close_state (base d)
        /\ exists t, trace (final_world (maybeLogLocked d w))
                     = trace w ++ WindowClose :: t);
}.

#[global] Instance FixedCountStat_closing :
  ClosingPolicy (FixedCountStat T).
Proof.
  split.
  - intros s d. reflexivity.
  - intros d w. rewrite fixed_maybeLogLocked_eq.
    destruct (fixed_windowSize_ d <=? count (current_ (fixed_base d))).
    + right. split; [reflexivity |]. apply close_world_trace.
    + left. split; reflexivity.
Qed.

#[global] Instance IntervalStat_closing :
  ClosingPolicy (IntervalStat T).
Proof.
  split.
  - intros s d. reflexivity.
  - intros d w. rewrite interval_maybeLogLocked_eq.
    destruct (windowId_ d =? window_id_at d w).
    + left. split; reflexivity.
    + right. split; [reflexivity |].
      apply (close_world_trace (interval_base d) (steady_tick w)).
Qed.

Context {D : Type} {DD : Derived D} {SC : StatClass D}
        {CP : ClosingPolicy D}.

(** The Stat inside a derived object after one [add]: the observation
    went into the window [c0] that was current after the first policy
    check, and the second check either kept that window current or
    made it the previous one. [t0] and [t1] are what the two checks
    appended to the trace. *)
Lemma add_cases (v : T) (d : D) (w : World T) :
  let s := base d in
  let s' := base (final_state (add v d w)) in
  exists (c0 : Values T) (t0 t1 : list (Effect T)),
    let c' := accumulate (aggregations_ s) v c0 in
    trace (final_world (add v d w)) = trace w ++ t0 ++ t1
    /\ name_ s' = name_ s
    /\ aggregations_ s' = aggregations_ s
    /\ ((c0 = current_ s /\ t0 = [])
        \/ (c0 = Values_init /\ exists t, t0 = WindowClose :: t))
    /\ ((current_ s' = c' /\ t1 = []
         /\ prev_ s' = (if decide (t0 = []) then prev_ s else current_ s))
        \/ (current_ s' = Values_init /\ prev_ s' = c'
            /\ exists t, t1 = WindowClose :: t)).
Proof.
  intros s s'. subst s s'. rewrite add_eq. cbv zeta.
  set (r := maybeLogLocked d w).
  destruct (maybeLogLocked_cases d w) as [[Hb Ht] | [Hb [t Ht]]];
    fold r in Hb, Ht; rewrite Hb.
  - set (d2 := set_base _ (final_state r)).
    assert (Hd2 : base d2 = set_current
              (accumulate (aggregations_ (base d)) v (current_ (base d)))
              (base d)) by apply base_set_base.
    exists (current_ (base d)), [].
    destruct (maybeLogLocked_cases d2 (final_world r))
      as [[Hb2 Ht2] | [Hb2 [t2 Ht2]]]; rewrite Hb2, Ht2, Hd2, Ht.
    + exists []. simpl. rewrite app_nil_r. repeat split; auto.
    + exists (WindowClose :: t2). simpl. repeat split; auto.
      right. repeat split; eauto.
  - set (d2 := set_base _ (final_state r)).
    assert (Hd2 : base d2 = set_current
              (accumulate (aggregations_ (base d)) v Values_init)
              (close_state (base d))) by apply base_set_base.
    exists Values_init, (WindowClose :: t).
    destruct (maybeLogLocked_cases d2 (final_world r))
      as [[Hb2 Ht2] | [Hb2 [t2 Ht2]]]; rewrite Hb2, Ht2, Hd2, Ht.
    + exists []. simpl. rewrite app_nil_r. repeat split; eauto.
    + exists (WindowClose :: t2). simpl. rewrite <- app_assoc. simpl.
      repeat split; eauto 6.
Qed.

Lemma add_all_cons (v : T) (vs : list T) (d : D) (w : World T) :
  add_all (v :: vs) d w
  = add_all vs (final_state (add v d w)) (final_world (add v d w)).
Proof.
  simpl. unfold bind, final_state, final_world.
  destruct (add v d w) as [[[] d1] w1]. reflexivity.
Qed.

Lemma add_all_app (vs vs' : list T) (d : D) (w : World T) :
  add_all (vs ++ vs') d w
  = add_all vs' (final_state (add_all vs d w))
                (final_world (add_all vs d w)).
Proof.
  revert d w. induction vs as [| v vs IH]; intros d w.
  - reflexivity.
  - rewrite <- app_comm_cons, !add_all_cons. apply IH.
Qed.

(** [add] only ever appends to the trace. *)
Lemma add_all_trace (vs : list T) (d : D) (w : World T) :
  exists t, trace (final_world (add_all vs d w)) = trace w ++ t.
Proof.
  revert d w. induction vs as [| v vs IH]; intros d w.
  - exists []. simpl. now rewrite app_nil_r.
  - rewrite add_all_cons.
    destruct (IH (final_state (add v d w)) (final_world (add v d w)))
      as [t Ht].
    destruct (add_cases v d w) as (c0 & t0 & t1 & Htr & _).
    exists ((t0 ++ t1) ++ t). rewrite Ht, Htr. now rewrite <- !app_assoc.
Qed.

End Policies.

(** ** The finalised snapshot *)

(** A world whose clocks stand at 0 and in which nothing has happened
    yet; the examples below start from it. *)
Definition still_world : World Z :=
  mkWorld (fun _ => 0) 0%nat (fun _ => 0) 0%nat [].

(** Modelled from the spec: the display names of the end-to-end example
    ("sum", "count", "mean"), the other kinds named in the same manner.
    Used by the examples only. *)
Definition lowercase_names : Naming :=
  {| aggregationName a :=
       match a with
       | NONE => "none" | VALUE => "value" | MEAN => "mean"
       | COUNT => "count" | SUM => "sum" | MAX => "max" | MIN => "min"
       end |}.

Section Snapshot.
Context {T : Type} {NT : Numeric T}.

(** The entry [getLocked] reports for kind [k] of window [p]. *)
Definition finalize (p : Values T) (k : Aggregation) : option T :=
  match k with
  | NONE => None
  | VALUE => Some (value p)
  | MEAN => Some (if count p =? 0 then T_of_int 0
                  else T_div (sum p) (T_of_int (count p)))
  | COUNT => Some (T_of_int (count p))
  | SUM => Some (sum p)
  | MAX => Some (max p)
  | MIN => Some (min p)
  end.

(** [getLocked] holds exactly the finalised entries of the selected
    kinds, read from the previous window. *)
Lemma getLocked_lookup (s : Stat T) (k : Aggregation) :
  getLocked s !! k
  = if bitset.test (aggregations_ s) k then finalize (prev_ s) k else None.
Proof.
  unfold getLocked, finalize.
  destruct (bitset.test (aggregations_ s) VALUE) eqn:E1,
           (bitset.test (aggregations_ s) MEAN) eqn:E2,
           (bitset.test (aggregations_ s) COUNT) eqn:E3,
           (bitset.test (aggregations_ s) SUM) eqn:E4,
           (bitset.test (aggregations_ s) MAX) eqn:E5,
           (bitset.test (aggregations_ s) MIN) eqn:E6,
           (count (prev_ s) =? 0) eqn:E0;
    destruct k;
    rewrite ?E1, ?E2, ?E3, ?E4, ?E5, ?E6;
    try (destruct (bitset.test (aggregations_ s) NONE));
    vm_compute; reflexivity.
Qed.

Lemma finalize_init (k : Aggregation) :
  finalize Values_init k = if decide (k = NONE) then None
                           else Some (T_of_int 0).
Proof. destruct k; reflexivity. Qed.

End Snapshot.

(** ** Claims on the aggregation set and on the snapshot *)

(** C9: the aggregation set built by the constructor does not depend on
    duplicates or on order: a list [l'] that is the deduplicated [l] in
    any order gives the same bitset, hence the same membership test, as
    [l]; a kind tests true exactly when it was listed; the constructor
    stores that set, and no member function ([add] with a closing
    policy, [logLocked], the destructor, [count], [get]) changes it. *)
Theorem aggregation_set_fixed_by_members
    {T : Type} {NT : Numeric T} {NM : Naming}
    {D : Type} {DD : Derived D} {SC : StatClass D} {CP : ClosingPolicy D}
    (l l' : list Aggregation) :
  l' ≡ₚ remove_dups l ->
  merge l' = merge l
  /\ (forall k, bitset.test (merge l') k = bitset.test (merge l) k)
  /\ (forall k, bitset.test (merge l) k = true <-> k ∈ l)
  /\ (forall name (w : World T),
        aggregations_ (fst (Stat_new name l w)) = merge l)
  /\ (forall (v : T) (d : D) (w : World T),
        aggregations_ (base (final_state (add v d w)))
        = aggregations_ (base d))
  /\ (forall (s : Stat T) (w : World T),
        aggregations_ (final_state (logLocked s w)) = aggregations_ s
        /\ aggregations_ (final_state (Stat_delete s w)) = aggregations_ s
        /\ aggregations_ (final_state (Stat_count s w)) = aggregations_ s
        /\ aggregations_ (final_state (Stat_get s w)) = aggregations_ s).
Proof.
  intros Hperm.
  assert (Hmerge : merge l' = merge l).
  { apply merge_ext. intros k. rewrite Hperm. apply elem_of_remove_dups. }
  split; [exact Hmerge |]. split; [now rewrite Hmerge |].
  split; [apply test_merge |]. split; [reflexivity |]. split.
  - intros v d w. destruct (add_cases v d w) as (c0 & t0 & t1 & _ & _ & Ha & _).
    exact Ha.
  - intros s w. unfold Stat_delete, bind. rewrite logLocked_eq.
    repeat split.
Qed.

Lemma aggregation_set_fixed_by_members_witness :
  [MEAN; SUM] ≡ₚ remove_dups [SUM; SUM; MEAN]
  /\ merge [MEAN; SUM] = merge [SUM; SUM; MEAN].
Proof.
  split.
  - apply (perm_swap SUM MEAN []).
  - apply (proj1 (aggregation_set_fixed_by_members
                    (NM := lowercase_names)
                    (CP := FixedCountStat_closing
                             (T := Z) (NM := lowercase_names))
                    [SUM; SUM; MEAN] [MEAN; SUM] (perm_swap SUM MEAN []))).
Defined.

(** C2, as claimed, fails: a fresh Stat selecting SUM answers [get()]
    with the entry SUM -> 0. *)
Lemma fresh_get_is_not_empty :
  let s := fst (Stat_new (T := Z) "latency" [SUM] still_world) in
  let w := snd (Stat_new (T := Z) "latency" [SUM] still_world) in
  result (Stat_get s w) = {[ SUM := 0 ]}
  /\ result (Stat_get s w) <> ∅.
Proof.
  split.
  - vm_compute. reflexivity.
  - intros Heq. apply (f_equal (fun m => m !! SUM)) in Heq.
    vm_compute in Heq. discriminate.
Qed.

(** C2, amended: on a freshly constructed Stat [get()] returns the
    mapping that holds, for every selected kind among VALUE, MEAN, COUNT,
    SUM, MAX and MIN, one entry of value 0, and nothing else. *)
Theorem fresh_get_zero_entries
    {T : Type} `{Numeric T} (name : string) (aggregations : list Aggregation)
    (w : World T) (k : Aggregation) :
  result (Stat_get (fst (Stat_new name aggregations w))
                   (snd (Stat_new name aggregations w))) !! k
  = if decide (k ∈ aggregations /\ k <> NONE) then Some (T_of_int 0)
    else None.
Proof.
  unfold Stat_get, gets, result. simpl.
  rewrite getLocked_lookup. simpl. rewrite finalize_init.
  destruct (bitset.test (merge aggregations) k) eqn:Ek.
  - apply test_merge in Ek.
    destruct (decide (k = NONE)) as [-> | Hk].
    + rewrite decide_False; [reflexivity | tauto].
    + rewrite decide_True; [reflexivity | tauto].
  - rewrite decide_False; [reflexivity |].
    intros [Hin _]. apply test_merge in Hin. congruence.
Qed.

(** C3: in the snapshot of a finalised window, MEAN is 0 when the
    window's count is 0, whatever the division of [T] would give, and is
    [sum / count] in the arithmetic of [T] otherwise; for [int64_t] that
    quotient is the truncating integer division. The finalised window,
    [prev_], is the window [logLocked] has closed. *)
Theorem mean_of_finalized_window :
  (forall (T : Type) (N : Numeric T) (s : Stat T),
      bitset.test (aggregations_ s) MEAN = true ->
      count (prev_ s) = 0 ->
      getLocked s !! MEAN = Some (T_of_int 0))
  /\ (forall (T : Type) (N : Numeric T) (s : Stat T),
        bitset.test (aggregations_ s) MEAN = true ->
        0 < count (prev_ s) ->
        getLocked s !! MEAN
        = Some (T_div (sum (prev_ s)) (T_of_int (count (prev_ s)))))
  /\ (forall (s : Stat Z),
        bitset.test (aggregations_ s) MEAN = true ->
        0 < count (prev_ s) <= INT64_MAX ->
        in_int64 (sum (prev_ s)) ->
        getLocked s !! MEAN = Some (Z.quot (sum (prev_ s)) (count (prev_ s))))
  /\ (forall (s : Stat Z),
        bitset.test (aggregations_ s) MEAN = true ->
        count (prev_ s) = 0 ->
        getLocked s !! MEAN = Some 0)
  /\ (forall (T : Type) (N : Numeric T) (NM : Naming)
             (s : Stat T) (w : World T),
        prev_ (final_state (logLocked s w)) = current_ s).
Proof.
  assert (Hpos : forall (T : Type) (N : Numeric T) (s : Stat T),
             bitset.test (aggregations_ s) MEAN = true ->
             0 < count (prev_ s) ->
             getLocked s !! MEAN
             = Some (T_div (sum (prev_ s)) (T_of_int (count (prev_ s))))).
  { intros T N s Ht Hc. rewrite getLocked_lookup, Ht. simpl.
    destruct (Z.eqb_spec (count (prev_ s)) 0); [lia | reflexivity]. }
  assert (Hzero : forall (T : Type) (N : Numeric T) (s : Stat T),
             bitset.test (aggregations_ s) MEAN = true ->
             count (prev_ s) = 0 ->
             getLocked s !! MEAN = Some (T_of_int 0)).
  { intros T N s Ht Hc. rewrite getLocked_lookup, Ht. simpl.
    now rewrite Hc. }
  split; [exact Hzero |]. split; [exact Hpos |]. split; [| split].
  - intros s Ht Hc Hs. rewrite (Hpos Z Int64 s Ht) by lia. simpl. f_equal.
    rewrite (wrap64_id (count (prev_ s)))
      by (unfold in_int64, INT64_MIN, INT64_MAX in *; lia).
    apply wrap64_id. apply quot_in_int64; [exact Hs | lia].
  - intros s Ht Hc. exact (Hzero Z Int64 s Ht Hc).
  - intros T N NM s w. rewrite logLocked_eq. reflexivity.
Qed.

Lemma mean_of_finalized_window_witness :
  let s : Stat Z := mkStat "latency" (merge [MEAN])
                           Values_init (mkValues 0 (-7) 0 0 2) in
  (bitset.test (aggregations_ s) MEAN = true
   /\ 0 < count (prev_ s) <= INT64_MAX
   /\ in_int64 (sum (prev_ s)))
  /\ getLocked s !! MEAN = Some (-3).
Proof.
  assert (Hs : in_int64 (-7)) by (vm_compute; split; discriminate).
  assert (Hc : 0 < 2 <= INT64_MAX) by (vm_compute; split; [reflexivity | discriminate]).
  split.
  - split; [reflexivity | split; [exact Hc | exact Hs]].
  - exact (proj1 (proj2 (proj2 mean_of_finalized_window))
             (mkStat "latency" (merge [MEAN])
                     Values_init (mkValues 0 (-7) 0 0 2))
             eq_refl Hc Hs).
Defined.

(** ** Claims on closing and destruction *)

(** The events of a trace, oldest first. *)
Definition events {T : Type} (t : list (Effect T)) : list (Event T) :=
  omap (fun e => match e with LogEvent ev => Some ev | _ => None end) t.

Section Windows.
Context {T : Type} {NT : Numeric T}.

(** The windows the code builds: value-initialised, then one
    observation after the other, the counter staying below its
    maximum. *)
Inductive window (aggs : Z) : Values T -> Prop :=
  | window_init : window aggs Values_init
  | window_add (v : T) (c : Values T) :
      window aggs c -> count c < INT64_MAX ->
      window aggs (accumulate aggs v c).

Lemma window_count (aggs : Z) (c : Values T) :
  window aggs c -> 0 <= count c <= INT64_MAX.
Proof.
  unfold INT64_MAX.
  induction 1 as [| v c Hw IH Hlt]; [simpl; lia |].
  rewrite count_accumulate.
  rewrite wrap64_id; unfold in_int64, INT64_MIN, INT64_MAX in *; lia.
Qed.

(** A window that counts no observation is the value-initialised one. *)
Lemma window_empty (aggs : Z) (c : Values T) :
  window aggs c -> count c = 0 -> c = Values_init.
Proof.
  destruct 1 as [| v c Hw Hlt]; [reflexivity |].
  rewrite count_accumulate. intros Heq.
  apply window_count in Hw.
  rewrite wrap64_id in Heq;
    unfold in_int64, INT64_MIN, INT64_MAX in *; lia.
Qed.

End Windows.

(** C6: a close emits an event exactly when the closed window counts at
    least one observation. [logLocked] on a window of count > 0 appends
    the close and one event, on a window of count 0 the close alone; the
    destructor does the same and then unregisters, so the one final
    event comes before the unregistration and an empty window is
    destroyed without any event. *)
Theorem close_emits_iff_nonempty
    {T : Type} {NT : Numeric T} {NM : Naming} (s : Stat T) (w : World T) :
  0 <= count (current_ s) ->
  let e := close_event s (system_clock w (system_reads w)) in
  (0 < count (current_ s) ->
     trace (final_world (logLocked s w)) = trace w ++ [WindowClose; LogEvent e]
     /\ trace (final_world (Stat_delete s w))
        = trace w ++ [WindowClose; LogEvent e; UnregisterStat (name_ s)])
  /\ (count (current_ s) = 0 ->
        trace (final_world (logLocked s w)) = trace w ++ [WindowClose]
        /\ trace (final_world (Stat_delete s w))
           = trace w ++ [WindowClose; UnregisterStat (name_ s)])
  /\ (events (trace (final_world (logLocked s w)))
      = events (trace w) ++ (if 0 <? count (current_ s) then [e] else []))
  /\ (events (trace (final_world (Stat_delete s w)))
      = events (trace w) ++ (if 0 <? count (current_ s) then [e] else [])).
Proof.
  intros Hc e.
  unfold Stat_delete, bind, gets, emit. rewrite logLocked_eq.
  unfold final_world, close_world, events. simpl.
  destruct (Z.eqb_spec (count (current_ s)) 0) as [H0 | Hne]; simpl.
  - rewrite H0. simpl. rewrite <- !app_assoc, !omap_app. simpl.
    repeat split; try reflexivity; lia.
  - destruct (Z.ltb_spec 0 (count (current_ s))); [| lia].
    rewrite <- !app_assoc, !omap_app. simpl.
    repeat split; try reflexivity; lia.
Qed.

Lemma close_emits_iff_nonempty_witness :
  let s : Stat Z := mkStat "latency" (merge [SUM])
                           (mkValues 0 12 0 0 2) Values_init in
  0 <= count (current_ s)
  /\ events (trace (final_world
                      (Stat_delete (NM := lowercase_names) s still_world)))
     = [mkEvent "torch.monitor.Stat" "latency" 0 {[ "latency.sum" := 12 ]}].
Proof.
  split.
  - vm_compute. discriminate.
  - exact (proj2 (proj2 (proj2
             (close_emits_iff_nonempty (NM := lowercase_names)
                (mkStat "latency" (merge [SUM])
                        (mkValues 0 12 0 0 2) Values_init)
                still_world
                ltac:(vm_compute; discriminate))))).
Defined.

(** C10: closing a window that counts no observation emits no event but
    still makes that empty window the previous one and opens a fresh
    current one; [get()] then reports 0 for every selected kind,
    whatever the window closed before held. *)
Theorem empty_close_replaces_snapshot
    {T : Type} {NT : Numeric T} {NM : Naming}
    (s : Stat T) (w : World T) (k : Aggregation) :
  window (aggregations_ s) (current_ s) ->
  count (current_ s) = 0 ->
  k <> NONE ->
  let r := logLocked s w in
  trace (final_world r) = trace w ++ [WindowClose]
  /\ prev_ (final_state r) = Values_init
  /\ current_ (final_state r) = Values_init
  /\ result (Stat_get (final_state r) (final_world r)) !! k
     = if bitset.test (aggregations_ s) k then Some (T_of_int 0) else None.
Proof.
  intros Hw Hc Hk r. subst r. rewrite logLocked_eq.
  pose proof (window_empty _ _ Hw Hc) as Hinit.
  unfold final_world, final_state, result, Stat_get, gets, close_world.
  simpl. rewrite Hc. simpl. repeat split; auto.
  rewrite getLocked_lookup. simpl. rewrite Hinit, finalize_init.
  now rewrite decide_False.
Qed.

Lemma empty_close_replaces_snapshot_witness :
  let s : Stat Z := mkStat "latency" (merge [SUM; MAX])
                           Values_init (mkValues 0 60 0 30 3) in
  (window (aggregations_ s) (current_ s)
   /\ count (current_ s) = 0 /\ MAX <> NONE)
  /\ result (Stat_get
               (final_state (logLocked (NM := lowercase_names) s still_world))
               (final_world (logLocked (NM := lowercase_names) s still_world)))
     !! MAX = Some 0.
Proof.
  split.
  - split; [apply window_init | split; [reflexivity | discriminate]].
  - exact (proj2 (proj2 (proj2
             (empty_close_replaces_snapshot (NM := lowercase_names)
                (mkStat "latency" (merge [SUM; MAX])
                        Values_init (mkValues 0 60 0 30 3))
                still_world MAX
                (window_init _) eq_refl ltac:(discriminate))))).
Defined.

(** ** Claims on accumulation *)

Section Accumulation.
Context {T : Type} {NT : Numeric T}.

(** The first observation of a window becomes its maximum and its
    minimum without being compared. *)
Lemma accumulate_first (aggs : Z) (v : T) (c : Values T) :
  bitset.test aggs MAX = true -> bitset.test aggs MIN = true ->
  count c = 0 ->
  max (accumulate aggs v c) = v /\ min (accumulate aggs v c) = v
  /\ count (accumulate aggs v c) = 1.
Proof.
  intros Hmax Hmin Hc. unfold accumulate. rewrite Hmax, Hmin.
  destruct (bitset.test aggs VALUE),
           (bitset.test aggs MEAN || bitset.test aggs SUM);
    cbn; rewrite ?Hc; cbn; rewrite ?orb_true_r; cbn;
    rewrite ?Hc; cbn; rewrite ?orb_true_r; cbn; rewrite ?Hc; auto.
Qed.

Lemma count_accumulate_succ (aggs : Z) (v : T) (c : Values T) :
  0 <= count c < INT64_MAX ->
  count (accumulate aggs v c) = count c + 1.
Proof.
  intros Hc. rewrite count_accumulate. apply wrap64_id.
  unfold in_int64, INT64_MIN, INT64_MAX in *. lia.
Qed.

End Accumulation.

(** C4: when the current window counts no observation and MAX and MIN
    are selected, one [add v] leaves a window of count 1 whose minimum
    and maximum are both [v], whatever [v] is. That window is the
    current one, or the previous one when the policy closed it right
    after the observation. *)
Theorem first_observation_seeds_min_max
    {T : Type} {NT : Numeric T}
    {D : Type} {DD : Derived D} {SC : StatClass D} {CP : ClosingPolicy D}
    (v : T) (d : D) (w : World T) :
  bitset.test (aggregations_ (base d)) MAX = true ->
  bitset.test (aggregations_ (base d)) MIN = true ->
  count (current_ (base d)) = 0 ->
  let s' := base (final_state (add v d w)) in
  let win := if count (current_ s') =? 0 then prev_ s' else current_ s' in
  min win = v /\ max win = v /\ count win = 1
  /\ (forall c, count c = 0 ->
        min (accumulate (aggregations_ (base d)) v c) = v
        /\ max (accumulate (aggregations_ (base d)) v c) = v).
Proof.
  intros Hmax Hmin Hc s' win.
  assert (Hacc : forall c, count c = 0 ->
            max (accumulate (aggregations_ (base d)) v c) = v
            /\ min (accumulate (aggregations_ (base d)) v c) = v
            /\ count (accumulate (aggregations_ (base d)) v c) = 1)
    by (intros c Hc0; now apply accumulate_first).
  destruct (add_cases v d w)
    as (c0 & t0 & t1 & _ & _ & _ & Hpre & Hpost). cbv zeta in Hpost.
  fold s' in Hpost.
  assert (Hc0 : count c0 = 0).
  { destruct Hpre as [[-> _] | [-> _]]; [exact Hc | reflexivity]. }
  destruct (Hacc c0 Hc0) as (Hmx & Hmn & Hct).
  assert (Hwin : win = accumulate (aggregations_ (base d)) v c0).
  { subst win. destruct Hpost as [(Hcur & _) | (Hcur & Hprev & _)];
      rewrite Hcur.
    - now rewrite Hct.
    - simpl. exact Hprev. }
  rewrite Hwin. repeat split; auto; now apply Hacc.
Qed.

Lemma first_observation_seeds_min_max_witness :
  let d : FixedCountStat Z :=
    mkFixedCountStat
      (mkStat "latency" (merge [MAX; MIN]) Values_init Values_init) 1 in
  (bitset.test (aggregations_ (base d)) MAX = true
   /\ bitset.test (aggregations_ (base d)) MIN = true
   /\ count (current_ (base d)) = 0)
  /\ min (prev_ (base (final_state
                         (add (SC := FixedCountStat_class
                                       (NM := lowercase_names))
                              (-5) d still_world)))) = -5.
Proof.
  split.
  - repeat split.
  - exact (proj1
             (first_observation_seeds_min_max
                (CP := FixedCountStat_closing (NM := lowercase_names))
                (-5)
                (mkFixedCountStat
                   (mkStat "latency" (merge [MAX; MIN])
                           Values_init Values_init) 1)
                still_world eq_refl eq_refl eq_refl)).
Defined.

Lemma upcast_Stat_count
    {T : Type} {NT : Numeric T} {D : Type} {DD : Derived D}
    (d : D) (w : World T) :
  result (upcast Stat_count d w) = count (current_ (base d)).
Proof. reflexivity. Qed.

(** C8: over a sequence of [add] calls that triggers no window close
    (the trace is left as it was), [count()] grows by exactly the number
    of calls, so it is that number when the sequence starts right after
    a close; each observation adds exactly 1 whatever the aggregation
    set; and [count()] returns the counter and leaves the Stat and the
    world as they were. *)
Theorem count_counts_adds
    {T : Type} {NT : Numeric T}
    {D : Type} {DD : Derived D} {SC : StatClass D} {CP : ClosingPolicy D}
    (vs : list T) (d : D) (w : World T) :
  0 <= count (current_ (base d)) ->
  count (current_ (base d)) + Z.of_nat (length vs) <= INT64_MAX ->
  trace (final_world (add_all vs d w)) = trace w ->
  result (upcast Stat_count (final_state (add_all vs d w))
                            (final_world (add_all vs d w)))
  = count (current_ (base d)) + Z.of_nat (length vs)
  /\ (forall (s : Stat T) (w' : World T),
        Stat_count s w' = (count (current_ s), s, w'))
  /\ (forall (aggs : Z) (v : T) (c : Values T),
        0 <= count c < INT64_MAX ->
        count (accumulate aggs v c) = count c + 1).
Proof.
  intros Hc Hmax Hno.
  split; [| split; [reflexivity | apply @count_accumulate_succ]].
  rewrite upcast_Stat_count.
  revert d w Hc Hmax Hno.
  induction vs as [| v vs IH]; intros d w Hc Hmax Hno.
  - unfold final_state, add_all, ret. simpl. lia.
  - rewrite add_all_cons in *.
    destruct (add_cases v d w)
      as (c0 & t0 & t1 & Htr & _ & _ & Hpre & Hpost). cbv zeta in Hpost.
    destruct (add_all_trace vs (final_state (add v d w))
                            (final_world (add v d w))) as [t Ht].
    rewrite Ht, Htr, <- !app_assoc in Hno.
    rewrite <- (app_nil_r (trace w)) in Hno at 2.
    apply app_inv_head in Hno.
    apply app_eq_nil in Hno as [Ht0 Hno].
    apply app_eq_nil in Hno as [Ht1 Htnil].
    destruct Hpre as [[-> _] | [_ [t' Ht']]]; [| congruence].
    destruct Hpost as [(Hcur & _) | (_ & _ & [t' Ht'])]; [| congruence].
    assert (Hc1 : count (current_ (base (final_state (add v d w))))
                  = count (current_ (base d)) + 1).
    { rewrite Hcur. apply count_accumulate_succ.
      simpl length in Hmax. lia. }
    simpl length in Hmax.
    rewrite IH.
    + rewrite Hc1. simpl length. lia.
    + lia.
    + lia.
    + rewrite Ht, Htnil, app_nil_r. reflexivity.
Qed.

Lemma count_counts_adds_witness :
  let d : FixedCountStat Z :=
    mkFixedCountStat
      (mkStat "latency" (merge [SUM]) Values_init Values_init) 5 in
  let r := add_all (SC := FixedCountStat_class (NM := lowercase_names))
                   [7; 9] d still_world in
  (0 <= count (current_ (base d))
   /\ count (current_ (base d)) + Z.of_nat (length [7; 9]) <= INT64_MAX
   /\ trace (final_world r) = trace still_world)
  /\ result (upcast Stat_count (final_state r) (final_world r)) = 2.
Proof.
  split.
  - split; [vm_compute; discriminate |].
    split; [vm_compute; discriminate | reflexivity].
  - exact (proj1
             (count_counts_adds
                (CP := FixedCountStat_closing (NM := lowercase_names))
                [7; 9]
                (mkFixedCountStat
                   (mkStat "latency" (merge [SUM]) Values_init Values_init) 5)
                still_world
                ltac:(vm_compute; discriminate)
                ltac:(vm_compute; discriminate)
                eq_refl)).
Defined.

(** ** The fixed-count policy *)

(** Reduce the field accesses of the derived objects and leave
    [accumulate] folded. *)
Ltac stat_simpl :=
  cbn [fixed_base fixed_windowSize_ interval_base windowId_
       interval_windowSize_ base set_base FixedCountStat_derived
       IntervalStat_derived observed set_current set_prev set_windowId
       current_ prev_ name_ aggregations_ close_state fst snd] in *.

Section FixedCount.
Context {T : Type} {NT : Numeric T} {NM : Naming}.

(** An [add] that stays below the threshold closes nothing. *)
Lemma fixed_add_below (v : T) (d : FixedCountStat T) (w : World T) :
  0 <= count (current_ (fixed_base d)) ->
  count (current_ (fixed_base d)) + 1 < fixed_windowSize_ d ->
  fixed_windowSize_ d <= INT64_MAX ->
  add v d w
  = (tt, mkFixedCountStat (observed v (fixed_base d)) (fixed_windowSize_ d),
     w).
Proof.
  intros Hc Hlt Hmax. rewrite add_eq. cbv zeta.
  rewrite (fixed_maybeLogLocked_eq d w).
  rewrite (proj2 (Z.leb_gt _ _)) by lia.
  unfold final_state, final_world. cbn [fst snd].
  rewrite fixed_maybeLogLocked_eq. stat_simpl.
  rewrite count_accumulate_succ by lia.
  rewrite (proj2 (Z.leb_gt _ _)) by lia.
  reflexivity.
Qed.

(** The [add] that reaches the threshold closes the window it has just
    completed. *)
Lemma fixed_add_reach (v : T) (d : FixedCountStat T) (w : World T) :
  0 <= count (current_ (fixed_base d)) ->
  count (current_ (fixed_base d)) + 1 = fixed_windowSize_ d ->
  fixed_windowSize_ d <= INT64_MAX ->
  add v d w
  = (tt, mkFixedCountStat (close_state (observed v (fixed_base d)))
                          (fixed_windowSize_ d),
     close_world (observed v (fixed_base d)) w).
Proof.
  intros Hc Heq Hmax. rewrite add_eq. cbv zeta.
  rewrite (fixed_maybeLogLocked_eq d w).
  rewrite (proj2 (Z.leb_gt _ _)) by lia.
  unfold final_state, final_world. cbn [fst snd].
  rewrite fixed_maybeLogLocked_eq. stat_simpl.
  rewrite count_accumulate_succ by lia.
  rewrite (proj2 (Z.leb_le _ _)) by lia.
  reflexivity.
Qed.

(** Any number of [add] calls that stay below the threshold: the
    world and the previous window are untouched. *)
Lemma fixed_add_all_below (vs : list T) (d : FixedCountStat T)
    (w : World T) :
  0 <= count (current_ (fixed_base d)) ->
  count (current_ (fixed_base d)) + Z.of_nat (length vs)
    < fixed_windowSize_ d ->
  fixed_windowSize_ d <= INT64_MAX ->
  exists cur : Values T,
    add_all vs d w
    = (tt, mkFixedCountStat (set_current cur (fixed_base d))
                            (fixed_windowSize_ d), w)
    /\ count cur
       = count (current_ (fixed_base d)) + Z.of_nat (length vs).
Proof.
  revert d. induction vs as [| v vs IH]; intros d Hc Hlt Hmax.
  - exists (current_ (fixed_base d)). destruct d as [[n a c p] N].
    simpl. split; [reflexivity | lia].
  - rewrite length_cons, Nat2Z.inj_succ in *. rewrite add_all_cons.
    rewrite fixed_add_below by lia.
    unfold final_state, final_world. stat_simpl.
    destruct (IH (mkFixedCountStat (observed v (fixed_base d))
                                   (fixed_windowSize_ d)))
      as (cur & Heq & Hcur); stat_simpl.
    + rewrite count_accumulate_succ; lia.
    + rewrite count_accumulate_succ; lia.
    + exact Hmax.
    + exists cur. rewrite Heq. split; [reflexivity |].
      rewrite Hcur, count_accumulate_succ by lia. lia.
Qed.

End FixedCount.

(** C1: a FixedCountStat with threshold [N >= 1] whose current window
    is empty, given exactly [N] calls of [add]: after any smaller number
    of calls the world is untouched (no close, no event), the counter is
    the number of calls and the previous window is the old one; the
    [N]-th call itself appends one close with one event, carrying the
    Stat's name; the closed window counts [N] observations and
    [count()] is 0 again. *)
Theorem fixed_count_closes_on_nth_add
    {T : Type} {NT : Numeric T} {NM : Naming}
    (N : Z) (d : FixedCountStat T) (w : World T) (vs : list T) :
  1 <= N <= INT64_MAX ->
  fixed_windowSize_ d = N ->
  count (current_ (fixed_base d)) = 0 ->
  Z.of_nat (length vs) = N ->
  (forall k : nat, (k < length vs)%nat ->
     let r := add_all (take k vs) d w in
     final_world r = w
     /\ result (upcast Stat_count (final_state r) (final_world r))
        = Z.of_nat k
     /\ prev_ (base (final_state r)) = prev_ (base d))
  /\ (let r := add_all vs d w in
      (exists e : Event T,
          trace (final_world r) = trace w ++ [WindowClose; LogEvent e]
          /\ type e = "torch.monitor.Stat"
          /\ message e = name_ (fixed_base d))
      /\ count (prev_ (base (final_state r))) = N
      /\ result (upcast Stat_count (final_state r) (final_world r)) = 0).
Proof.
  intros HN Hsize Hc Hlen. split.
  - intros k Hk r. subst r.
    destruct (fixed_add_all_below (take k vs) d w) as (cur & Heq & Hcur);
      rewrite ?length_take; try lia.
    rewrite Heq, upcast_Stat_count. unfold final_state, final_world.
    stat_simpl. rewrite length_take in Hcur. repeat split; lia.
  - destruct vs as [| v vs _] using rev_ind.
    + simpl in Hlen. lia.
    + rewrite length_app in Hlen. simpl in Hlen.
      rewrite add_all_app.
      destruct (fixed_add_all_below vs d w) as (cur & Heq & Hcur);
        try lia.
      rewrite Heq. unfold final_state, final_world. cbn [fst snd].
      rewrite add_all_cons.
      rewrite fixed_add_reach by (stat_simpl; lia).
      unfold final_state, final_world, add_all, ret. cbn [fst snd].
      fold (@final_state T (FixedCountStat T) Z).
      fold (@final_world T (FixedCountStat T) Z).
      rewrite upcast_Stat_count. unfold final_state, final_world.
      stat_simpl.
      rewrite count_accumulate_succ by lia.
      split; [| split; [lia | reflexivity]].
      unfold close_world. stat_simpl.
      rewrite count_accumulate_succ by lia.
      destruct (Z.eqb_spec (count cur + 1) 0) as [Hz | _]; [lia |].
      eexists. split; [reflexivity |]. split; reflexivity.
Qed.

Lemma fixed_count_closes_on_nth_add_witness :
  let d : FixedCountStat Z :=
    mkFixedCountStat
      (mkStat "latency" (merge [SUM]) Values_init Values_init) 2 in
  (1 <= 2 <= INT64_MAX
   /\ fixed_windowSize_ d = 2
   /\ count (current_ (fixed_base d)) = 0
   /\ Z.of_nat (length [4; 6]) = 2)
  /\ result (upcast Stat_count
               (final_state
                  (add_all (SC := FixedCountStat_class (NM := lowercase_names))
                           [4; 6] d still_world))
               (final_world
                  (add_all (SC := FixedCountStat_class (NM := lowercase_names))
                           [4; 6] d still_world))) = 0.
Proof.
  assert (HN : 1 <= 2 <= INT64_MAX) by (vm_compute; split; discriminate).
  split.
  - split; [exact HN | repeat split].
  - exact (proj2 (proj2 (proj2
             (fixed_count_closes_on_nth_add (NM := lowercase_names) 2
                (mkFixedCountStat
                   (mkStat "latency" (merge [SUM]) Values_init Values_init) 2)
                still_world [4; 6] HN eq_refl eq_refl eq_refl)))).
Defined.

(** Close a comparison of closed integers by evaluation. *)
Ltac by_evaluation := solve [stat_simpl; vm_compute; congruence].

(** The three calls of the end-to-end example, run. *)
Lemma latency_run {NM : Naming} (w : World Z) :
  aggregationName SUM = "sum" ->
  aggregationName COUNT = "count" ->
  aggregationName MEAN = "mean" ->
  add_all [10; 20; 30]
          (fst (FixedCountStat_new "latency" [SUM; COUNT; MEAN] 3 w))
          (snd (FixedCountStat_new "latency" [SUM; COUNT; MEAN] 3 w))
  = (tt,
     mkFixedCountStat
       (mkStat "latency" (merge [SUM; COUNT; MEAN])
               Values_init (mkValues 0 60 0 0 3)) 3,
     mkWorld (steady_clock w) (steady_reads w)
       (system_clock w) (S (system_reads w))
       (trace w ++
        [RegisterStat "latency"; WindowClose;
         LogEvent (mkEvent "torch.monitor.Stat" "latency"
                     (system_clock w (system_reads w))
                     {[ "latency.sum" := 60; "latency.count" := 3;
                        "latency.mean" := 20 ]})])).
Proof.
  intros Hsum Hcount Hmean.
  unfold FixedCountStat_new, Stat_new, emit, final_state,
    final_world. cbn [fst snd trace steady_clock steady_reads system_clock
                      system_reads].
  rewrite add_all_cons, fixed_add_below by by_evaluation.
  unfold final_state, final_world. cbn [fst snd].
  rewrite add_all_cons, fixed_add_below by by_evaluation.
  unfold final_state, final_world. cbn [fst snd].
  rewrite add_all_cons, fixed_add_reach by by_evaluation.
  unfold final_state, final_world, add_all, ret. cbn [fst snd].
  f_equal.
  unfold close_world.
  match goal with
  | |- context [count ?c =? 0] =>
      replace (count c =? 0) with false by (vm_compute; reflexivity)
  end.
  cbn [trace steady_clock steady_reads system_clock system_reads].
  rewrite <- app_assoc. cbn [app]. do 6 f_equal.
  unfold close_event. stat_simpl. f_equal.
  unfold build_metadata.
  match goal with
  | |- context [map_to_list ?m] =>
      replace (map_to_list m) with [(SUM, 60); (MEAN, 20); (COUNT, 3)]
        by (vm_compute; reflexivity)
  end.
  cbn [foldl fst snd]. unfold metadata_key.
  rewrite Hsum, Hcount, Hmean. vm_compute. reflexivity.
Qed.

(** C7: the Stat "latency" with aggregations SUM, COUNT and MEAN and the
    fixed-count threshold 3, given [add(10)], [add(20)], [add(30)], emits
    exactly one event: its type is "torch.monitor.Stat", its message
    "latency", its metadata latency.sum -> 60, latency.count -> 3 and
    latency.mean -> 20, the keys being the name, a dot and the display
    name. From then on [get()] returns SUM -> 60, COUNT -> 3,
    MEAN -> 20 and changes nothing, also after up to two further [add]
    calls, which do not close the next window. *)
Theorem latency_end_to_end {NM : Naming} (w : World Z) :
  aggregationName SUM = "sum" ->
  aggregationName COUNT = "count" ->
  aggregationName MEAN = "mean" ->
  let d0 := fst (FixedCountStat_new "latency" [SUM; COUNT; MEAN] 3 w) in
  let w0 := snd (FixedCountStat_new "latency" [SUM; COUNT; MEAN] 3 w) in
  let r := add_all [10; 20; 30] d0 w0 in
  let snapshot : gmap Aggregation Z :=
    {[ SUM := 60; COUNT := 3; MEAN := 20 ]} in
  trace (final_world r)
  = trace w ++
    [RegisterStat "latency"; WindowClose;
     LogEvent (mkEvent "torch.monitor.Stat" "latency"
                 (system_clock w (system_reads w))
                 {[ "latency.sum" := 60; "latency.count" := 3;
                    "latency.mean" := 20 ]})]
  /\ upcast Stat_get (final_state r) (final_world r)
     = (snapshot, final_state r, final_world r)
  /\ (forall vs : list Z, (length vs < 3)%nat ->
        let r' := add_all vs (final_state r) (final_world r) in
        result (upcast Stat_get (final_state r') (final_world r')) = snapshot
        /\ final_world r' = final_world r).
Proof.
  intros Hsum Hcount Hmean d0 w0 r snapshot.
  assert (Hr := latency_run w Hsum Hcount Hmean). fold d0 w0 r in Hr.
  rewrite Hr. unfold final_state, final_world. cbn [fst snd trace].
  split; [reflexivity |]. split.
  - unfold upcast, Stat_get, gets. cbn [base set_base FixedCountStat_derived
      fixed_base fixed_windowSize_].
    f_equal; try f_equal; vm_compute; reflexivity.
  - intros vs Hlen.
    match goal with
    | |- context [add_all vs ?d ?w'] =>
        destruct (fixed_add_all_below vs d w') as (cur & Heq & _);
          [by_evaluation | stat_simpl; simpl count; lia | by_evaluation |]
    end.
    rewrite Heq. cbn [fst snd].
    split; [| reflexivity].
    unfold upcast, Stat_get, gets, result. stat_simpl.
    vm_compute. reflexivity.
Qed.

Lemma latency_end_to_end_witness :
  (aggregationName (Naming := lowercase_names) SUM = "sum"
   /\ aggregationName (Naming := lowercase_names) COUNT = "count"
   /\ aggregationName (Naming := lowercase_names) MEAN = "mean")
  /\ trace (final_world
              (add_all (SC := FixedCountStat_class (NM := lowercase_names))
                 [10; 20; 30]
                 (fst (FixedCountStat_new "latency" [SUM; COUNT; MEAN] 3
                         still_world))
                 (snd (FixedCountStat_new "latency" [SUM; COUNT; MEAN] 3
                         still_world))))
     = [RegisterStat "latency"; WindowClose;
        LogEvent (mkEvent "torch.monitor.Stat" "latency" 0
                    {[ "latency.sum" := 60; "latency.count" := 3;
                       "latency.mean" := 20 ]})].
Proof.
  split.
  - repeat split.
  - exact (proj1 (latency_end_to_end (NM := lowercase_names) still_world
                    eq_refl eq_refl eq_refl)).
Defined.

(** ** The interval policy *)

Section Interval.
Context {T : Type} {NT : Numeric T} {NM : Naming}.

(** The window id computed from the [i]-th reading of the steady clock
    after those already taken in [w]. *)
Definition nth_window_id (d : IntervalStat T) (w : World T) (i : nat) : Z :=
  wrapu64 (Z.quot (steady_clock w (i + steady_reads w)%nat)
                  (interval_windowSize_ d)).

(** An [add] whose two readings of the clock fall in one bucket [W]:
    if [W] is the bucket of the open window nothing closes; otherwise
    the open window is closed once, before the observation. *)
Lemma interval_add_one_bucket (v : T) (d : IntervalStat T) (w : World T) :
  nth_window_id d w 0 = nth_window_id d w 1 ->
  add v d w
  = if windowId_ d =? nth_window_id d w 0
    then (tt, mkIntervalStat (observed v (interval_base d)) (windowId_ d)
                             (interval_windowSize_ d),
          steady_tick (steady_tick w))
    else (tt, mkIntervalStat (observed v (close_state (interval_base d)))
                             (nth_window_id d w 0) (interval_windowSize_ d),
          steady_tick (close_world (interval_base d) (steady_tick w))).
Proof.
  unfold nth_window_id. cbn [Nat.add]. intros Hsame.
  rewrite add_eq. cbv zeta. rewrite (interval_maybeLogLocked_eq d w).
  unfold window_id_at.
  destruct (windowId_ d =? _) eqn:Hid;
    unfold final_state, final_world; cbn [fst snd];
    rewrite interval_maybeLogLocked_eq; unfold window_id_at; stat_simpl.
  - cbn [steady_tick steady_clock steady_reads].
    apply Z.eqb_eq in Hid. rewrite <- Hsame, <- Hid, Z.eqb_refl.
    reflexivity.
  - assert (Hreads : forall s w',
               steady_reads (close_world s w') = steady_reads w'
               /\ steady_clock (close_world s w') = steady_clock w').
    { intros s w'. unfold close_world.
      destruct (count (current_ s) =? 0); split; reflexivity. }
    destruct (Hreads (interval_base d) (steady_tick w)) as [-> ->].
    cbn [steady_tick steady_clock steady_reads].
    rewrite <- Hsame, Z.eqb_refl. reflexivity.
Qed.

End Interval.

Section IntervalCalls.
Context {T : Type} {NT : Numeric T} {NM : Naming}.

Lemma close_world_clock (s : Stat T) (w : World T) :
  steady_reads (close_world s w) = steady_reads w
  /\ steady_clock (close_world s w) = steady_clock w.
Proof.
  unfold close_world. destruct (count (current_ s) =? 0); split; reflexivity.
Qed.

(** What a call of [add] within one bucket leaves behind. *)
Lemma interval_add_one_bucket_state (v : T) (d : IntervalStat T)
    (w : World T) :
  nth_window_id d w 0 = nth_window_id d w 1 ->
  let d1 := final_state (add v d w) in
  let w1 := final_world (add v d w) in
  windowId_ d1 = nth_window_id d w 0
  /\ interval_windowSize_ d1 = interval_windowSize_ d
  /\ aggregations_ (interval_base d1) = aggregations_ (interval_base d)
  /\ steady_clock w1 = steady_clock w
  /\ steady_reads w1 = S (S (steady_reads w))
  /\ exists c0, (c0 = current_ (interval_base d) \/ c0 = Values_init)
                /\ current_ (interval_base d1)
                   = accumulate (aggregations_ (interval_base d)) v c0.
Proof.
  intros Hsame d1 w1. subst d1 w1.
  rewrite (interval_add_one_bucket v d w Hsame).
  destruct (Z.eqb_spec (windowId_ d) (nth_window_id d w 0)) as [Hid | Hid];
    unfold final_state, final_world; stat_simpl.
  - repeat split; auto. exists (current_ (interval_base d)). auto.
  - destruct (close_world_clock (interval_base d) (steady_tick w))
      as [Hr Hc].
    cbn [steady_tick steady_clock steady_reads] in *.
    rewrite Hr, Hc. repeat split; auto. exists Values_init. auto.
Qed.

(** A call of [add] within one bucket on a non-empty open window: it
    closes nothing when the bucket is that of the open window, and
    closes the open window once, with its event, when it is not. *)
Lemma interval_add_after (v : T) (d : IntervalStat T) (w : World T) :
  nth_window_id d w 0 = nth_window_id d w 1 ->
  count (current_ (interval_base d)) <> 0 ->
  let r := add v d w in
  (windowId_ d = nth_window_id d w 0 ->
     trace (final_world r) = trace w
     /\ prev_ (interval_base (final_state r)) = prev_ (interval_base d)
     /\ current_ (interval_base (final_state r))
        = accumulate (aggregations_ (interval_base d)) v
                     (current_ (interval_base d)))
  /\ (windowId_ d <> nth_window_id d w 0 ->
        trace (final_world r)
        = trace w ++
          [WindowClose;
           LogEvent (close_event (interval_base d)
                       (system_clock w (system_reads w)))]
        /\ prev_ (interval_base (final_state r))
           = current_ (interval_base d)
        /\ current_ (interval_base (final_state r))
           = accumulate (aggregations_ (interval_base d)) v Values_init).
Proof.
  intros Hsame Hcount r. subst r.
  rewrite (interval_add_one_bucket v d w Hsame).
  destruct (Z.eqb_spec (windowId_ d) (nth_window_id d w 0)) as [Hid | Hid];
    unfold final_state, final_world; stat_simpl;
    (split; [intros Hyes | intros Hno]); try congruence.
  - repeat split.
  - unfold close_world.
    destruct (Z.eqb_spec (count (current_ (interval_base d))) 0);
      [congruence |].
    repeat split.
Qed.

End IntervalCalls.

(** C5, amended: two consecutive [add] calls on an IntervalStat with a
    positive window size, each of which
    computes one window id (its two readings of the clock agree). The
    first observation stays in the open window. If the two calls compute
    the same id, the second call closes nothing: the trace is left as it
    was, the previous window is the same, and both observations are in
    the one current window. If the ids differ, by any amount, the second
    call appends exactly one close with the one event of the window
    holding the first observation, and starts a new window with the
    second observation: no close and no event for the buckets skipped. *)
Theorem interval_one_close_per_boundary
    {T : Type} {NT : Numeric T} {NM : Naming}
    (v1 v2 : T) (d : IntervalStat T) (w : World T) :
  0 < interval_windowSize_ d ->
  0 <= count (current_ (interval_base d)) <= INT64_MAX ->
  nth_window_id d w 0 = nth_window_id d w 1 ->
  nth_window_id d w 2 = nth_window_id d w 3 ->
  let r1 := add v1 d w in
  let r2 := add v2 (final_state r1) (final_world r1) in
  let s1 := base (final_state r1) in
  let s2 := base (final_state r2) in
  (exists c0, (c0 = current_ (base d) \/ c0 = Values_init)
              /\ current_ s1 = accumulate (aggregations_ (base d)) v1 c0)
  /\ (nth_window_id d w 1 = nth_window_id d w 2 ->
        trace (final_world r2) = trace (final_world r1)
        /\ prev_ s2 = prev_ s1
        /\ current_ s2 = accumulate (aggregations_ s1) v2 (current_ s1))
  /\ (nth_window_id d w 1 <> nth_window_id d w 2 ->
        trace (final_world r2)
        = trace (final_world r1) ++
          [WindowClose;
           LogEvent (close_event s1
                       (system_clock (final_world r1)
                                     (system_reads (final_world r1))))]
        /\ prev_ s2 = current_ s1
        /\ current_ s2 = accumulate (aggregations_ s1) v2 Values_init).
Proof.
  intros _ Hc H01 H23 r1 r2 s1 s2. subst r1 r2 s1 s2.
  destruct (interval_add_one_bucket_state v1 d w H01)
    as (Hid & Hsize & Haggs & Hclock & Hreads & c0 & Hc0 & Hcur).
  set (d1 := final_state (add v1 d w)) in *.
  set (w1 := final_world (add v1 d w)) in *.
  assert (Hshift : forall i, nth_window_id d1 w1 i
                             = nth_window_id d w (2 + i)).
  { intros i. unfold nth_window_id. rewrite Hsize, Hclock, Hreads.
    do 3 f_equal. lia. }
  assert (Hsame : nth_window_id d1 w1 0 = nth_window_id d1 w1 1)
    by (rewrite !Hshift; exact H23).
  assert (Hne : count (current_ (interval_base d1)) <> 0).
  { rewrite Hcur, count_accumulate. apply wrap64_succ_nonzero.
    destruct Hc0 as [-> | ->]; [exact Hc |].
    cbn. unfold INT64_MAX. lia. }
  destruct (interval_add_after v2 d1 w1 Hsame Hne) as [Hkeep Hclose].
  rewrite Hid, Hshift in Hkeep, Hclose. cbn [Nat.add] in Hkeep, Hclose.
  stat_simpl. split; [exists c0; split; [exact Hc0 | exact Hcur] |].
  split.
  - intros Heq. apply Hkeep. congruence.
  - intros Hneq. apply Hclose. congruence.
Qed.

Lemma interval_one_close_per_boundary_witness :
  let d : IntervalStat Z :=
    mkIntervalStat
      (mkStat "latency" (merge [SUM]) Values_init Values_init) 0 1000 in
  let w : World Z :=
    mkWorld (fun n => if (n <? 2)%nat then 10 else 7500) 0%nat
            (fun _ => 0) 0%nat [] in
  let r1 := add (SC := IntervalStat_class (NM := lowercase_names)) 5 d w in
  let r2 := add (SC := IntervalStat_class (NM := lowercase_names)) 6
                (final_state r1) (final_world r1) in
  (0 < interval_windowSize_ d
   /\ 0 <= count (current_ (interval_base d)) <= INT64_MAX
   /\ nth_window_id d w 0 = nth_window_id d w 1
   /\ nth_window_id d w 2 = nth_window_id d w 3
   /\ nth_window_id d w 1 <> nth_window_id d w 2)
  /\ trace (final_world r2)
     = [WindowClose;
        LogEvent (mkEvent "torch.monitor.Stat" "latency" 0
                          {[ "latency.sum" := 5 ]})].
Proof.
  assert (HW : 0 < 1000) by lia.
  assert (Hc : 0 <= 0 <= INT64_MAX) by (vm_compute; split; discriminate).
  assert (Hne : 0 <> 7) by discriminate.
  split.
  - split; [exact HW | split; [exact Hc | repeat split; exact Hne]].
  - exact (proj1 (proj2 (proj2
             (interval_one_close_per_boundary (NM := lowercase_names) 5 6
                (mkIntervalStat
                   (mkStat "latency" (merge [SUM]) Values_init Values_init)
                   0 1000)
                (mkWorld (fun n => if (n <? 2)%nat then 10 else 7500) 0%nat
                         (fun _ => 0) 0%nat [])
                HW Hc eq_refl eq_refl)) Hne)).
Defined.

(** C5, as claimed, fails: with a window of 1000 ticks, a first [add]
    whose two clock readings are 10 and 10 (bucket 0) and a second [add]
    whose readings are 7500 and 8500 (buckets 7 and 8) straddle bucket
    boundaries, and the second call closes two windows and emits two
    events: the check before the observation closes the window of the
    first observation, the check after it the window of the second. *)
Lemma interval_two_closes_in_one_add :
  let d : IntervalStat Z :=
    mkIntervalStat
      (mkStat "latency" (merge [SUM]) Values_init Values_init) 0 1000 in
  let w : World Z :=
    mkWorld (fun n => if (n <? 2)%nat then 10
                      else if (n <? 3)%nat then 7500 else 8500) 0%nat
            (fun _ => 0) 0%nat [] in
  let r1 := add (SC := IntervalStat_class (NM := lowercase_names)) 5 d w in
  let r2 := add (SC := IntervalStat_class (NM := lowercase_names)) 6
                (final_state r1) (final_world r1) in
  (nth_window_id d w 0 = 0 /\ nth_window_id d w 1 = 0
   /\ nth_window_id d w 2 = 7 /\ nth_window_id d w 3 = 8)
  /\ trace (final_world r1) = []
  /\ trace (final_world r2)
     = [WindowClose;
        LogEvent (mkEvent "torch.monitor.Stat" "latency" 0
                          {[ "latency.sum" := 5 ]});
        WindowClose;
        LogEvent (mkEvent "torch.monitor.Stat" "latency" 0
                          {[ "latency.sum" := 6 ]})]
  /\ ~ (exists e : Event Z,
          trace (final_world r2)
          = trace (final_world r1) ++ [WindowClose; LogEvent e]).
Proof.
  split; [repeat split |]. split; [reflexivity |].
  split; [vm_compute; reflexivity |].
  intros [e He]. vm_compute in He. discriminate He.
Qed.

(** * Further properties of the counters *)

(** ** The size of the aggregation set and of the snapshot *)

Lemma all_aggregations_complete (k : Aggregation) : k ∈ all_aggregations.
Proof. destruct k; unfold all_aggregations; set_solver. Qed.

Lemma all_aggregations_NoDup : NoDup all_aggregations.
Proof.
  apply (bool_decide_unpack _). vm_compute. exact I.
Qed.

(** X1: [count()] of the bitset the constructor builds is the number of
    distinct kinds in the initializer list, at most [NUM_AGGREGATIONS]. *)
Theorem count_merge_distinct (l : list Aggregation) :
  bitset.count (merge l) = length (remove_dups l)
  /\ (Z.of_nat (bitset.count (merge l)) <= NUM_AGGREGATIONS)%Z.
Proof.
  assert (Hperm : filter (fun b => bitset.test (merge l) b = true)
                         all_aggregations ≡ₚ remove_dups l).
  { apply NoDup_Permutation.
    - apply NoDup_filter, all_aggregations_NoDup.
    - apply NoDup_remove_dups.
    - intros k. rewrite list_elem_of_filter, elem_of_remove_dups, test_merge.
      pose proof (all_aggregations_complete k). tauto. }
  split.
  - unfold bitset.count. now rewrite Hperm.
  - unfold bitset.count, NUM_AGGREGATIONS.
    pose proof (length_filter (fun b => bitset.test (merge l) b = true)
                  all_aggregations) as Hle.
    simpl length in Hle. lia.
Qed.

(** X2: at any time [get()] has an entry for a kind exactly when the
    kind is selected and is not NONE; so the table holds as many entries
    as [reserve] was told ([aggregations_.count()]), or one fewer when
    NONE is selected. *)
Theorem getLocked_entries
    {T : Type} {NT : Numeric T} (s : Stat T) (k : Aggregation) :
  (is_Some (getLocked s !! k)
   <-> bitset.test (aggregations_ s) k = true /\ k <> NONE)
  /\ size (getLocked s)
     = (bitset.count (aggregations_ s)
        - (if bitset.test (aggregations_ s) NONE then 1 else 0))%nat.
Proof.
  split.
  - rewrite getLocked_lookup.
    destruct (bitset.test (aggregations_ s) k); destruct k; simpl;
      split; intros Hk; try (destruct Hk as [? ?]); try congruence;
      try (split; congruence); try (inversion Hk; congruence); eauto.
  - unfold getLocked, bitset.count, all_aggregations.
    rewrite !filter_cons, filter_nil.
    destruct (bitset.test (aggregations_ s) NONE),
             (bitset.test (aggregations_ s) VALUE),
             (bitset.test (aggregations_ s) MEAN),
             (bitset.test (aggregations_ s) COUNT),
             (bitset.test (aggregations_ s) SUM),
             (bitset.test (aggregations_ s) MAX),
             (bitset.test (aggregations_ s) MIN),
             (count (prev_ s) =? 0);
      vm_compute; reflexivity.
Qed.

(** ** [get()] between closes *)

Lemma getLocked_ext {T : Type} {NT : Numeric T} (s s' : Stat T) :
  aggregations_ s = aggregations_ s' -> prev_ s = prev_ s' ->
  getLocked s = getLocked s'.
Proof. intros Ha Hp. unfold getLocked. now rewrite Ha, Hp. Qed.

Lemma add_all_no_close_keeps
    {T : Type} {NT : Numeric T}
    {D : Type} {DD : Derived D} {SC : StatClass D} {CP : ClosingPolicy D}
    (vs : list T) (d : D) (w : World T) :
  trace (final_world (add_all vs d w)) = trace w ->
  prev_ (base (final_state (add_all vs d w))) = prev_ (base d)
  /\ aggregations_ (base (final_state (add_all vs d w)))
     = aggregations_ (base d).
Proof.
  revert d w. induction vs as [| v vs IH]; intros d w Hno.
  - split; reflexivity.
  - rewrite add_all_cons in *.
    destruct (add_cases v d w)
      as (c0 & t0 & t1 & Htr & _ & Haggs & Hpre & Hpost). cbv zeta in Hpost.
    destruct (add_all_trace vs (final_state (add v d w))
                            (final_world (add v d w))) as [t Ht].
    rewrite Ht, Htr, <- !app_assoc in Hno.
    rewrite <- (app_nil_r (trace w)) in Hno at 2.
    apply app_inv_head in Hno.
    apply app_eq_nil in Hno as [Ht0 Hno].
    apply app_eq_nil in Hno as [Ht1 Htnil].
    destruct Hpost as [(_ & _ & Hprev) | (_ & _ & [t' Ht'])];
      [| congruence].
    rewrite decide_True in Hprev by exact Ht0.
    destruct (IH (final_state (add v d w)) (final_world (add v d w)))
      as [IHp IHa].
    + rewrite Ht, Htnil, app_nil_r. reflexivity.
    + split; congruence.
Qed.

(** X3: [get()] only changes when a window closes: over any sequence of
    [add] calls that closes no window (the trace is left as it was),
    [get()] returns after the sequence what it returned before it. *)
Theorem get_stable_between_closes
    {T : Type} {NT : Numeric T}
    {D : Type} {DD : Derived D} {SC : StatClass D} {CP : ClosingPolicy D}
    (vs : list T) (d : D) (w : World T) :
  trace (final_world (add_all vs d w)) = trace w ->
  result (upcast Stat_get (final_state (add_all vs d w))
                          (final_world (add_all vs d w)))
  = result (upcast Stat_get d w).
Proof.
  intros Hno. destruct (add_all_no_close_keeps vs d w Hno) as [Hp Ha].
  change (getLocked (base (final_state (add_all vs d w)))
          = getLocked (base d)).
  now apply getLocked_ext.
Qed.

Lemma get_stable_between_closes_witness :
  let d : FixedCountStat Z :=
    mkFixedCountStat
      (mkStat "latency" (merge [SUM]) Values_init (mkValues 0 12 0 0 3)) 3 in
  let r := add_all (SC := FixedCountStat_class (NM := lowercase_names))
                   [4; 5] d still_world in
  trace (final_world r) = trace still_world
  /\ result (upcast Stat_get (final_state r) (final_world r))
     = {[ SUM := 12 ]}.
Proof.
  split.
  - reflexivity.
  - exact (get_stable_between_closes
             (CP := FixedCountStat_closing (NM := lowercase_names))
             [4; 5]
             (mkFixedCountStat
                (mkStat "latency" (merge [SUM]) Values_init
                        (mkValues 0 12 0 0 3)) 3)
             still_world eq_refl).
Defined.

(** ** What [add] does to the outside world *)

(** The effects of closing windows of the Stat called [name]: close
    marks, and events of the fixed type with the name as message. *)
Definition window_effect {T : Type} (name : string) (e : Effect T) : Prop :=
  match e with
  | WindowClose => True
  | LogEvent ev => type ev = "torch.monitor.Stat" /\ message ev = name
  | RegisterStat _ | UnregisterStat _ => False
  end.

Section WindowEffects.
Context {T : Type} {NT : Numeric T} {NM : Naming}.

Lemma close_world_effects (s : Stat T) (w : World T) :
  exists t, trace (close_world s w) = trace w ++ t
            /\ Forall (window_effect (name_ s)) t.
Proof.
  unfold close_world. destruct (count (current_ s) =? 0); simpl.
  - exists [WindowClose]. split; [reflexivity |].
    repeat constructor.
  - eexists. split; [reflexivity |]. repeat constructor.
Qed.

(** An override of [maybeLogLocked] that only ever closes windows. *)
Class WindowPolicy (D : Type) {DD : Derived D} {SC : StatClass D}
    : Prop := {
  maybeLogLocked_effects : forall (d : D) (w : World T),
    name_ (base (final_state (maybeLogLocked d w))) = name_ (base d)
    /\ exists t, trace (final_world (maybeLogLocked d w)) = trace w ++ t
                 /\ Forall (window_effect (name_ (base d))) t;
  set_base_name : forall (s : Stat T) (d : D),
    name_ (base (set_base s d)) = name_ s;
}.

#[global] Instance FixedCountStat_window : WindowPolicy (FixedCountStat T).
Proof.
  split; [| reflexivity].
  intros d w. rewrite fixed_maybeLogLocked_eq.
  destruct (fixed_windowSize_ d <=? count (current_ (fixed_base d))).
  - split; [reflexivity |]. apply close_world_effects.
  - split; [reflexivity |]. exists []. split; [| constructor].
    unfold final_world. simpl. now rewrite app_nil_r.
Qed.

#[global] Instance IntervalStat_window : WindowPolicy (IntervalStat T).
Proof.
  split; [| reflexivity].
  intros d w. rewrite interval_maybeLogLocked_eq.
  destruct (windowId_ d =? window_id_at d w).
  - split; [reflexivity |]. exists []. split; [| constructor].
    unfold final_world. simpl. now rewrite app_nil_r.
  - split; [reflexivity |].
    apply (close_world_effects (interval_base d) (steady_tick w)).
Qed.

Context {D : Type} {DD : Derived D} {SC : StatClass D}
        {WP : WindowPolicy D}.

Lemma add_effects (v : T) (d : D) (w : World T) :
  name_ (base (final_state (add v d w))) = name_ (base d)
  /\ exists t, trace (final_world (add v d w)) = trace w ++ t
               /\ Forall (window_effect (name_ (base d))) t.
Proof.
  rewrite add_eq. cbv zeta.
  destruct (maybeLogLocked_effects d w) as (Hn1 & t1 & Ht1 & Hf1).
  set (d1 := final_state (maybeLogLocked d w)) in *.
  set (w1 := final_world (maybeLogLocked d w)) in *.
  set (d2 := set_base _ d1).
  assert (Hn2 : name_ (base d2) = name_ (base d)).
  { subst d2. rewrite set_base_name. exact Hn1. }
  destruct (maybeLogLocked_effects d2 w1) as (Hn3 & t2 & Ht2 & Hf2).
  split; [congruence |].
  exists (t1 ++ t2). split.
  - rewrite Ht2, Ht1. now rewrite app_assoc.
  - apply Forall_app. split; [exact Hf1 | now rewrite <- Hn2].
Qed.

Lemma add_all_effects (vs : list T) (d : D) (w : World T) :
  name_ (base (final_state (add_all vs d w))) = name_ (base d)
  /\ exists t, trace (final_world (add_all vs d w)) = trace w ++ t
               /\ Forall (window_effect (name_ (base d))) t.
Proof.
  revert d w. induction vs as [| v vs IH]; intros d w.
  - split; [reflexivity |]. exists []. split; [| constructor].
    simpl. now rewrite app_nil_r.
  - assert (Hcons : add_all (v :: vs) d w
                    = add_all vs (final_state (add v d w))
                                 (final_world (add v d w))).
    { simpl. unfold bind, final_state, final_world.
      destruct (add v d w) as [[[] d1] w1]. reflexivity. }
    rewrite Hcons.
    destruct (add_effects v d w) as (Hn1 & t1 & Ht1 & Hf1).
    destruct (IH (final_state (add v d w)) (final_world (add v d w)))
      as (Hn2 & t2 & Ht2 & Hf2).
    split; [congruence |].
    exists (t1 ++ t2). split.
    + rewrite Ht2, Ht1. now rewrite app_assoc.
    + apply Forall_app. split; [exact Hf1 | now rewrite <- Hn1].
Qed.

End WindowEffects.

(** X4: whatever values are added, an IntervalStat or FixedCountStat
    keeps its name and does nothing to the outside world but close
    windows: what a sequence of [add] calls appends to the trace are
    close marks and events of type "torch.monitor.Stat" whose message is
    the Stat's name; it never registers or unregisters. *)
Theorem add_only_closes_windows
    {T : Type} {NT : Numeric T}
    {D : Type} {DD : Derived D} {SC : StatClass D} {WP : WindowPolicy D}
    (vs : list T) (d : D) (w : World T) :
  result (upcast Stat_name (final_state (add_all vs d w))
                           (final_world (add_all vs d w)))
  = name_ (base d)
  /\ exists t, trace (final_world (add_all vs d w)) = trace w ++ t
               /\ (forall e, e ∈ t ->
                     e = WindowClose
                     \/ exists ev, e = LogEvent ev
                                   /\ type ev = "torch.monitor.Stat"
                                   /\ message ev = name_ (base d)).
Proof.
  destruct (add_all_effects vs d w) as (Hn & t & Ht & Hf).
  split; [exact Hn |].
  exists t. split; [exact Ht |].
  intros e He. rewrite Forall_forall in Hf. specialize (Hf e He).
  destruct e as [n | n | | ev]; simpl in Hf; try contradiction; eauto.
Qed.

Lemma add_only_closes_windows_witness :
  let d : FixedCountStat Z :=
    mkFixedCountStat
      (mkStat "latency" (merge [SUM]) Values_init Values_init) 2 in
  let r := add_all (SC := FixedCountStat_class (NM := lowercase_names))
                   [4; 5; 6] d still_world in
  result (upcast Stat_name (final_state r) (final_world r)) = "latency".
Proof.
  exact (proj1 (add_only_closes_windows
                  (WP := FixedCountStat_window (NM := lowercase_names))
                  [4; 5; 6]
                  (mkFixedCountStat
                     (mkStat "latency" (merge [SUM])
                             Values_init Values_init) 2)
                  still_world)).
Defined.

(** ** More on the fixed-count policy *)

Lemma final_state_eq {T St A : Type} (a : A) (s : St) (w : World T) :
  final_state (a, s, w) = s.
Proof. reflexivity. Qed.

Lemma final_world_eq {T St A : Type} (a : A) (s : St) (w : World T) :
  final_world (a, s, w) = w.
Proof. reflexivity. Qed.

Section FixedCountMore.
Context {T : Type} {NT : Numeric T} {NM : Naming}.

Lemma close_world_events (s : Stat T) (w : World T) :
  events (trace (close_world s w))
  = events (trace w)
    ++ (if count (current_ s) =? 0 then []
        else [close_event s (system_clock w (system_reads w))]).
Proof.
  unfold close_world, events.
  destruct (count (current_ s) =? 0); simpl; rewrite omap_app; reflexivity.
Qed.

(** How many events a run of [add] calls emits, and where it leaves the
    counter. *)
Lemma fixed_event_count (vs : list T) (d : FixedCountStat T) (w : World T) :
  1 <= fixed_windowSize_ d <= INT64_MAX ->
  0 <= count (current_ (fixed_base d)) < fixed_windowSize_ d ->
  let n := count (current_ (fixed_base d)) + Z.of_nat (length vs) in
  let r := add_all vs d w in
  count (current_ (fixed_base (final_state r))) = n mod fixed_windowSize_ d
  /\ Z.of_nat (length (events (trace (final_world r))))
     = Z.of_nat (length (events (trace w))) + n / fixed_windowSize_ d
  /\ fixed_windowSize_ (final_state r) = fixed_windowSize_ d.
Proof.
  revert d w. induction vs as [| v vs IH]; intros d w HN Hc n r;
    subst n r.
  - unfold add_all, ret, final_state, final_world. cbn [fst snd length].
    rewrite Z.add_0_r, Z.mod_small, Z.div_small by lia.
    repeat split; lia.
  - rewrite add_all_cons, length_cons, Nat2Z.inj_succ.
    destruct (Z.eq_dec (count (current_ (fixed_base d)) + 1)
                       (fixed_windowSize_ d)) as [Hreach | Hbelow].
    + rewrite fixed_add_reach by lia.
      rewrite !final_state_eq, !final_world_eq.
      set (d1 := mkFixedCountStat _ _).
      set (w1 := close_world _ w).
      destruct (IH d1 w1) as (IHc & IHe & IHn);
        [subst d1; stat_simpl; lia
        | subst d1; stat_simpl; cbn; lia |].
      subst d1 w1. stat_simpl. cbn [count Values_init] in IHc, IHe.
      rewrite IHc, IHe, IHn, close_world_events. stat_simpl.
      rewrite count_accumulate_succ by lia.
      destruct (Z.eqb_spec (count (current_ (fixed_base d)) + 1) 0);
        [lia |].
      rewrite length_app. cbn [length].
      replace (count (current_ (fixed_base d)) + Z.succ (Z.of_nat (length vs)))
        with (0 + Z.of_nat (length vs) + 1 * fixed_windowSize_ d) by lia.
      rewrite Z.mod_add, Z.div_add by lia.
      repeat split; lia.
    + rewrite fixed_add_below by lia.
      rewrite !final_state_eq, !final_world_eq.
      set (d1 := mkFixedCountStat _ _).
      destruct (IH d1 w) as (IHc & IHe & IHn);
        [subst d1; stat_simpl; lia
        | subst d1; stat_simpl; rewrite count_accumulate_succ by lia; lia |].
      subst d1. stat_simpl.
      rewrite count_accumulate_succ in IHc, IHe by lia.
      rewrite IHc, IHe, IHn.
      replace (count (current_ (fixed_base d)) + Z.succ (Z.of_nat (length vs)))
        with (count (current_ (fixed_base d)) + 1 + Z.of_nat (length vs))
        by lia.
      repeat split; lia.
Qed.

End FixedCountMore.

(** X5: a FixedCountStat with threshold [N >= 1] whose counter stands at
    [c < N], given [n] further [add] calls, emits exactly
    [(c + n) / N] events, one per completed window, and leaves
    [count()] at [(c + n) mod N]. *)
Theorem fixed_count_emits_one_event_per_window
    {T : Type} {NT : Numeric T} {NM : Naming}
    (vs : list T) (d : FixedCountStat T) (w : World T) :
  1 <= fixed_windowSize_ d <= INT64_MAX ->
  0 <= count (current_ (fixed_base d)) < fixed_windowSize_ d ->
  let n := count (current_ (fixed_base d)) + Z.of_nat (length vs) in
  let r := add_all vs d w in
  result (upcast Stat_count (final_state r) (final_world r))
  = n mod fixed_windowSize_ d
  /\ Z.of_nat (length (events (trace (final_world r))))
     = Z.of_nat (length (events (trace w))) + n / fixed_windowSize_ d.
Proof.
  intros HN Hc n r.
  destruct (fixed_event_count vs d w HN Hc) as (Hcount & Hevents & _).
  split; [exact Hcount | exact Hevents].
Qed.

Lemma fixed_count_emits_one_event_per_window_witness :
  let d : FixedCountStat Z :=
    mkFixedCountStat
      (mkStat "latency" (merge [SUM]) Values_init Values_init) 2 in
  let r := add_all (SC := FixedCountStat_class (NM := lowercase_names))
                   [1; 2; 3; 4; 5] d still_world in
  (1 <= fixed_windowSize_ d <= INT64_MAX
   /\ 0 <= count (current_ (fixed_base d)) < fixed_windowSize_ d)
  /\ result (upcast Stat_count (final_state r) (final_world r)) = 1
  /\ Z.of_nat (length (events (trace (final_world r)))) = 2.
Proof.
  assert (HN : 1 <= 2 <= INT64_MAX) by (vm_compute; split; discriminate).
  assert (Hc : 0 <= 0 < 2) by lia.
  split; [split; [exact HN | exact Hc] |].
  exact (fixed_count_emits_one_event_per_window (NM := lowercase_names)
           [1; 2; 3; 4; 5]
           (mkFixedCountStat
              (mkStat "latency" (merge [SUM]) Values_init Values_init) 2)
           still_world HN Hc).
Defined.

Lemma upcast_Stat_delete_trace
    {T : Type} {NT : Numeric T} {NM : Naming}
    {D : Type} {DD : Derived D} (d : D) (w : World T) :
  trace (final_world (upcast Stat_delete d w))
  = trace (close_world (base d) w) ++ [UnregisterStat (name_ (base d))].
Proof.
  unfold upcast, Stat_delete, bind, gets, emit. rewrite logLocked_eq.
  reflexivity.
Qed.

(** X6: the life of a FixedCountStat with threshold [N >= 1]:
    constructed, given [n] observations, destroyed. It registers once,
    first, and unregisters once, last; in between it only closes
    windows, with events under its own name; and it emits [n / N]
    events for the full windows plus one for the remainder when [N]
    does not divide [n], so every observation is in exactly one emitted
    window. *)
Theorem fixed_count_lifecycle
    {T : Type} {NT : Numeric T} {NM : Naming}
    (name : string) (aggregations : list Aggregation) (N : Z)
    (vs : list T) (w : World T) :
  1 <= N <= INT64_MAX ->
  let d0 := fst (FixedCountStat_new name aggregations N w) in
  let w0 := snd (FixedCountStat_new name aggregations N w) in
  let r := add_all vs d0 w0 in
  let r' := upcast Stat_delete (final_state r) (final_world r) in
  let n := Z.of_nat (length vs) in
  (exists t, trace (final_world r')
             = trace w ++ [RegisterStat name] ++ t ++ [UnregisterStat name]
             /\ forall e, e ∈ t -> window_effect name e)
  /\ Z.of_nat (length (events (trace (final_world r'))))
     = Z.of_nat (length (events (trace w)))
       + n / N + (if n mod N =? 0 then 0 else 1).
Proof.
  intros HN d0 w0 r r' n.
  set (s0 := mkStat name (merge aggregations)
                    (Values_init (T := T)) Values_init).
  assert (Hd0 : d0 = mkFixedCountStat s0 N) by reflexivity.
  assert (Hw0 : trace w0 = trace w ++ [RegisterStat name]) by reflexivity.
  destruct (add_all_effects vs d0 w0) as (Hname & t1 & Ht1 & Hf1).
  destruct (fixed_event_count vs d0 w0) as (Hcount & Hevents & _);
    [rewrite Hd0; stat_simpl; lia | rewrite Hd0; stat_simpl; cbn; lia |].
  fold r in Hname, Ht1, Hcount, Hevents.
  rewrite Hd0 in Hcount, Hevents, Hname, Hf1. stat_simpl.
  cbn [count Values_init] in Hcount, Hevents. rewrite Z.add_0_l in *.
  fold n in Hcount, Hevents.
  destruct (close_world_effects (base (final_state r)) (final_world r))
    as (t2 & Ht2 & Hf2).
  subst r'. rewrite upcast_Stat_delete_trace. stat_simpl.
  change (name_ s0) with name in *. rewrite Hname in *. split.
  - exists (t1 ++ t2). rewrite Ht2, Ht1, Hw0. split.
    + now rewrite <- !app_assoc.
    + intros e He.
      assert (Hf : Forall (window_effect name) (t1 ++ t2))
        by (apply Forall_app; split; assumption).
      rewrite Forall_forall in Hf. now apply Hf.
  - assert (Hw0e : events (trace w0) = events (trace w)).
    { rewrite Hw0. unfold events. rewrite omap_app. cbn [omap].
      now rewrite app_nil_r. }
    assert (Hlast : forall t : list (Effect T),
               events (t ++ [UnregisterStat name]) = events t).
    { intros t. unfold events. rewrite omap_app. cbn [omap].
      now rewrite app_nil_r. }
    rewrite Hlast, close_world_events, length_app, Nat2Z.inj_add.
    rewrite Hevents, Hw0e, Hcount.
    destruct (n mod N =? 0); cbn [length]; lia.
Qed.

Lemma fixed_count_lifecycle_witness :
  1 <= 2 <= INT64_MAX
  /\ Z.of_nat
       (length
          (events
             (trace
                (final_world
                   (upcast (Stat_delete (NM := lowercase_names))
                      (final_state
                         (add_all (SC := FixedCountStat_class
                                           (NM := lowercase_names))
                            [1; 2; 3]
                            (fst (FixedCountStat_new "latency" [SUM] 2
                                    still_world))
                            (snd (FixedCountStat_new "latency" [SUM] 2
                                    still_world))))
                      (final_world
                         (add_all (SC := FixedCountStat_class
                                           (NM := lowercase_names))
                            [1; 2; 3]
                            (fst (FixedCountStat_new "latency" [SUM] 2
                                    still_world))
                            (snd (FixedCountStat_new "latency" [SUM] 2
                                    still_world))))))))) = 2.
Proof.
  assert (HN : 1 <= 2 <= INT64_MAX) by (vm_compute; split; discriminate).
  split; [exact HN |].
  exact (proj2 (fixed_count_lifecycle (NM := lowercase_names)
                  "latency" [SUM] 2 [1; 2; 3] still_world HN)).
Defined.



(** ** More on the interval policy *)

(** X8: [currentWindowId] numbers the buckets of length [windowSize_]
    from the clock's epoch: for a positive window size and a reading
    [now] of the steady clock in [0, 2^63), the id is [now / windowSize_]
    rounded down, so it is [k] exactly for the readings in
    [k * windowSize_, (k + 1) * windowSize_); the call reads the clock
    once and leaves the Stat as it was. *)
Theorem currentWindowId_buckets
    {T : Type} {NT : Numeric T} (d : IntervalStat T) (w : World T) (k : Z) :
  0 < interval_windowSize_ d ->
  0 <= steady_clock w (steady_reads w) < 2 ^ 63 ->
  let now := steady_clock w (steady_reads w) in
  result (currentWindowId d w) = now / interval_windowSize_ d
  /\ (result (currentWindowId d w) = k
      <-> k * interval_windowSize_ d <= now < (k + 1) * interval_windowSize_ d)
  /\ final_state (currentWindowId d w) = d
  /\ steady_reads (final_world (currentWindowId d w)) = S (steady_reads w).
Proof.
  intros HW Hnow now. subst now.
  set (now := steady_clock w (steady_reads w)) in *.
  set (W := interval_windowSize_ d) in *.
  assert (Hid : result (currentWindowId d w) = now / W).
  { unfold currentWindowId, bind, steady_now, gets, ret, result. simpl.
    fold now W. rewrite Z.quot_div_nonneg by lia.
    unfold wrapu64. apply Z.mod_small.
    split; [apply Z.div_pos; lia |].
    apply Z.le_lt_trans with now; [| lia].
    apply Z.div_le_upper_bound; nia. }
  split; [exact Hid |]. split; [| split; reflexivity].
  rewrite Hid.
  pose proof (Z.div_mod now W ltac:(lia)) as Hdm.
  pose proof (Z.mod_pos_bound now W HW) as Hmod.
  split.
  - intros <-. nia.
  - intros Hk. symmetry. apply (Z.div_unique now W k (now - k * W)); lia.
Qed.

Lemma currentWindowId_buckets_witness :
  let d : IntervalStat Z :=
    mkIntervalStat
      (mkStat "latency" (merge [SUM]) Values_init Values_init) 0 1000 in
  let w : World Z := mkWorld (fun _ => 7999) 0%nat (fun _ => 0) 0%nat [] in
  (0 < interval_windowSize_ d
   /\ 0 <= steady_clock w (steady_reads w) < 2 ^ 63)
  /\ result (currentWindowId d w) = 7.
Proof.
  assert (HW : 0 < 1000) by lia.
  assert (Hnow : 0 <= 7999 < 2 ^ 63) by (vm_compute; split; congruence).
  split; [split; [exact HW | exact Hnow] |].
  exact (proj1 (currentWindowId_buckets
                  (mkIntervalStat
                     (mkStat "latency" (merge [SUM]) Values_init Values_init)
                     0 1000)
                  (mkWorld (fun _ => 7999) 0%nat (fun _ => 0) 0%nat [])
                  0 HW Hnow)).
Defined.

(** X9: an IntervalStat with a positive window size starts with
    [windowId_] 0, so its first [add],
    made in bucket [b], closes the still empty initial window when
    [b <> 0]: a close that emits no event. Either way the observation
    opens the window of bucket [b] and the previous window stays the
    value-initialised one. *)
Theorem interval_first_add
    {T : Type} {NT : Numeric T} {NM : Naming}
    (name : string) (aggregations : list Aggregation) (windowSize : Z)
    (v : T) (w : World T) :
  0 < windowSize ->
  let d0 := fst (IntervalStat_new name aggregations windowSize w) in
  let w0 := snd (IntervalStat_new name aggregations windowSize w) in
  nth_window_id d0 w0 0 = nth_window_id d0 w0 1 ->
  let r := add v d0 w0 in
  trace (final_world r)
  = trace w ++ [RegisterStat name]
            ++ (if 0 =? nth_window_id d0 w0 0 then [] else [WindowClose])
  /\ windowId_ (final_state r) = nth_window_id d0 w0 0
  /\ current_ (interval_base (final_state r))
     = accumulate (merge aggregations) v Values_init
  /\ prev_ (interval_base (final_state r)) = Values_init.
Proof.
  intros _ d0 w0 Hsame r. subst r.
  rewrite (interval_add_one_bucket v d0 w0 Hsame).
  change (windowId_ d0) with 0.
  destruct (Z.eqb_spec 0 (nth_window_id d0 w0 0)) as [Hid | Hid];
    rewrite final_state_eq, final_world_eq; stat_simpl.
  - repeat split; auto.
  - unfold close_world. subst d0 w0. cbn.
    rewrite <- app_assoc. repeat split.
Qed.

Lemma interval_first_add_witness :
  let w : World Z := mkWorld (fun _ => 7999) 0%nat (fun _ => 0) 0%nat [] in
  let d0 := fst (IntervalStat_new "latency" [SUM] 1000 w) in
  let w0 := snd (IntervalStat_new "latency" [SUM] 1000 w) in
  (0 < 1000 /\ nth_window_id d0 w0 0 = nth_window_id d0 w0 1)
  /\ trace (final_world
              (add (SC := IntervalStat_class (NM := lowercase_names))
                   5 d0 w0))
     = [RegisterStat "latency"; WindowClose].
Proof.
  assert (HW : 0 < 1000) by lia.
  split; [split; [exact HW | reflexivity] |].
  exact (proj1 (interval_first_add (NM := lowercase_names)
                  "latency" [SUM] 1000 5
                  (mkWorld (fun _ => 7999) 0%nat (fun _ => 0) 0%nat [])
                  HW eq_refl)).
Defined.

(** X10: when the bucket changes between the two clock readings of one
    [add] call, the check after the observation closes the window at
    once: the event is emitted in that same call and its window holds
    the observation just added; [count()] is back to 0. *)
Theorem interval_boundary_inside_add
    {T : Type} {NT : Numeric T} {NM : Naming}
    (v : T) (d : IntervalStat T) (w : World T) :
  windowId_ d = nth_window_id d w 0 ->
  nth_window_id d w 1 <> nth_window_id d w 0 ->
  0 <= count (current_ (interval_base d)) <= INT64_MAX ->
  let r := add v d w in
  trace (final_world r)
  = trace w ++
    [WindowClose;
     LogEvent (close_event (observed v (interval_base d))
                           (system_clock w (system_reads w)))]
  /\ prev_ (interval_base (final_state r))
     = accumulate (aggregations_ (interval_base d)) v
                  (current_ (interval_base d))
  /\ result (upcast Stat_count (final_state r) (final_world r)) = 0
  /\ windowId_ (final_state r) = nth_window_id d w 1.
Proof.
  unfold nth_window_id. cbn [Nat.add]. intros Hid Hne Hc.
  rewrite add_eq. cbv zeta. rewrite (interval_maybeLogLocked_eq d w).
  unfold window_id_at. rewrite Hid, Z.eqb_refl.
  rewrite final_state_eq, final_world_eq, interval_maybeLogLocked_eq.
  unfold window_id_at. stat_simpl.
  cbn [steady_tick steady_clock steady_reads]. rewrite Hid.
  rewrite (proj2 (Z.eqb_neq _ _)) by congruence.
  rewrite final_state_eq, final_world_eq. stat_simpl.
  unfold close_world. stat_simpl. rewrite count_accumulate.
  rewrite (proj2 (Z.eqb_neq _ _)) by (apply wrap64_succ_nonzero; exact Hc).
  repeat split.
Qed.

Lemma interval_boundary_inside_add_witness :
  let d : IntervalStat Z :=
    mkIntervalStat
      (mkStat "latency" (merge [SUM]) Values_init Values_init) 0 1000 in
  let w : World Z :=
    mkWorld (fun n => if (n <? 1)%nat then 999 else 1000) 0%nat
            (fun _ => 0) 0%nat [] in
  (windowId_ d = nth_window_id d w 0
   /\ nth_window_id d w 1 <> nth_window_id d w 0
   /\ 0 <= count (current_ (interval_base d)) <= INT64_MAX)
  /\ trace (final_world
              (add (SC := IntervalStat_class (NM := lowercase_names)) 5 d w))
     = [WindowClose;
        LogEvent (mkEvent "torch.monitor.Stat" "latency" 0
                          {[ "latency.sum" := 5 ]})].
Proof.
  assert (Hne : 1 <> 0) by discriminate.
  assert (Hc : 0 <= 0 <= INT64_MAX) by (vm_compute; split; discriminate).
  split; [split; [reflexivity | split; [exact Hne | exact Hc]] |].
  exact (proj1 (interval_boundary_inside_add (NM := lowercase_names) 5
                  (mkIntervalStat
                     (mkStat "latency" (merge [SUM]) Values_init Values_init)
                     0 1000)
                  (mkWorld (fun n => if (n <? 1)%nat then 999 else 1000)
                           0%nat (fun _ => 0) 0%nat [])
                  eq_refl Hne Hc)).
Defined.

(** ** The event metadata *)

Section Metadata.
Context {T : Type} {NT : Numeric T} {NM : Naming}.

(** Inserting the entries of a list under distinct keys, one after the
    other. *)
Lemma foldl_insert_union {K : Type} `{Countable K}
    (f : Aggregation -> K) (l : list (Aggregation * T)) (m : gmap K T) :
  NoDup (f <$> l.*1) ->
  foldl (fun md kv => <[f (fst kv) := snd kv]> md) m l
  = list_to_map (prod_map f id <$> l) ∪ m.
Proof.
  revert m. induction l as [| [k v] l IH]; intros m Hnd.
  - simpl. now rewrite (left_id_L ∅ (∪)).
  - cbn [fmap list_fmap fst snd] in Hnd. apply NoDup_cons in Hnd as [Hk Hnd].
    cbn [foldl fst snd]. rewrite IH by exact Hnd.
    cbn [fmap list_fmap prod_map fst snd list_to_map foldr id].
    rewrite <- insert_union_l. symmetry. apply insert_union_r.
    apply not_elem_of_list_to_map_1.
    rewrite <- list_fmap_compose.
    intros Hin. apply Hk. rewrite list_elem_of_fmap in Hin.
    destruct Hin as ([k' v'] & Heq & Hin). simpl in Heq. rewrite Heq.
    apply list_elem_of_fmap. exists k'. split; [reflexivity |].
    apply list_elem_of_fmap. exists (k', v'). split; [reflexivity | exact Hin].
Qed.

Lemma metadata_key_inj (name : string) :
  Inj (=) (=) aggregationName -> Inj (=) (=) (metadata_key name).
Proof.
  intros Hinj a b Heq. unfold metadata_key in Heq.
  apply Hinj. now do 2 apply String.app_inj in Heq.
Qed.

(** With distinct display names the loop builds the table of [stats]
    re-keyed by [metadata_key]. *)
Lemma build_metadata_kmap (name : string) (stats : gmap Aggregation T) :
  Inj (=) (=) aggregationName ->
  build_metadata name stats = kmap (metadata_key name) stats.
Proof.
  intros Hinj. pose proof (metadata_key_inj name Hinj) as Hkey.
  unfold build_metadata, kmap.
  rewrite (foldl_insert_union (metadata_key name)).
  - now rewrite (right_id_L ∅ (∪)).
  - apply NoDup_fmap_2; [exact Hkey | apply NoDup_fst_map_to_list].
Qed.

End Metadata.

(** X11: when the display names of the aggregation kinds are distinct,
    the event of a non-empty close carries exactly what [get()] returns
    right after that close: the same number of entries, each kind's
    value under the key "<name>.<display name>", and no other key. *)
Theorem event_metadata_mirrors_get
    {T : Type} {NT : Numeric T} {NM : Naming} (s : Stat T) (w : World T) :
  Inj (=) (=) aggregationName ->
  count (current_ s) <> 0 ->
  let r := logLocked s w in
  let got := result (Stat_get (final_state r) (final_world r)) in
  exists e : Event T,
    events (trace (final_world r)) = events (trace w) ++ [e]
    /\ (forall k, metadata e !! metadata_key (name_ s) k = got !! k)
    /\ (forall key x, metadata e !! key = Some x ->
          exists k, key = metadata_key (name_ s) k /\ got !! k = Some x)
    /\ size (metadata e) = size got.
Proof.
  intros Hinj Hc r got. subst r got. rewrite logLocked_eq.
  rewrite final_state_eq, final_world_eq, close_world_events.
  rewrite (proj2 (Z.eqb_neq _ _)) by exact Hc.
  pose proof (metadata_key_inj (name_ s) Hinj) as Hkey.
  eexists. split; [reflexivity |].
  unfold close_event, Stat_get, gets, result. cbn [metadata fst].
  rewrite build_metadata_kmap by exact Hinj.
  split; [| split].
  - intros k. apply (lookup_kmap (metadata_key (name_ s))).
  - intros key x Hx.
    apply (lookup_kmap_Some (metadata_key (name_ s))) in Hx. exact Hx.
  - rewrite <- !length_map_to_list.
    rewrite (map_to_list_kmap (metadata_key (name_ s))).
    apply length_fmap.
Qed.

Lemma lowercase_names_inj :
  Inj (=) (=) (aggregationName (Naming := lowercase_names)).
Proof. intros [] []; simpl; intros Heq; congruence. Qed.

Lemma event_metadata_mirrors_get_witness :
  let s : Stat Z := mkStat "latency" (merge [SUM; COUNT])
                           (mkValues 0 12 0 0 2) Values_init in
  (Inj (=) (=) (aggregationName (Naming := lowercase_names))
   /\ count (current_ s) <> 0)
  /\ exists e : Event Z,
       events (trace (final_world
                        (logLocked (NM := lowercase_names) s still_world)))
       = events (trace still_world) ++ [e]
       /\ size (metadata e) = 2%nat.
Proof.
  assert (Hc : 2 <> 0) by discriminate.
  split; [split; [exact lowercase_names_inj | exact Hc] |].
  destruct (event_metadata_mirrors_get (NM := lowercase_names)
              (mkStat "latency" (merge [SUM; COUNT])
                      (mkValues 0 12 0 0 2) Values_init)
              still_world lowercase_names_inj Hc)
    as (e & He & _ & _ & Hsize).
  exists e. split; [exact He | exact Hsize].
Defined.

(** ** What a window accumulates *)

(** A window after the observations [vs], folded in one after the other
    as [add] does. *)
Definition accumulate_all {T : Type} {NT : Numeric T}
    (aggs : Z) (vs : list T) (c : Values T) : Values T :=
  foldl (fun c v => accumulate aggs v c) c vs.

Section Fields.
Context {T : Type} {NT : Numeric T}.

(** The members of the window after one observation. *)
Lemma accumulate_fields (aggs : Z) (v : T) (c : Values T) :
  value (accumulate aggs v c)
  = (if bitset.test aggs VALUE then v else value c)
  /\ sum (accumulate aggs v c)
     = (if bitset.test aggs MEAN || bitset.test aggs SUM
        then T_add (sum c) v else sum c)
  /\ max (accumulate aggs v c)
     = (if bitset.test aggs MAX && (T_lt (max c) v || (count c =? 0))
        then v else max c)
  /\ min (accumulate aggs v c)
     = (if bitset.test aggs MIN && (T_lt v (min c) || (count c =? 0))
        then v else min c).
Proof.
  unfold accumulate, set_value, set_sum, set_max, set_min, set_count.
  destruct (bitset.test aggs VALUE),
           (bitset.test aggs MEAN || bitset.test aggs SUM),
           (bitset.test aggs MAX), (bitset.test aggs MIN);
    destruct (count c =? 0) eqn:E0, (T_lt (max c) v) eqn:E1,
             (T_lt v (min c)) eqn:E2;
    repeat (cbn [value sum max min count andb orb]; rewrite ?E0, ?E1, ?E2);
    repeat split.
Qed.

Lemma accumulate_all_snoc (aggs : Z) (vs : list T) (v : T) (c : Values T) :
  accumulate_all aggs (vs ++ [v]) c
  = accumulate aggs v (accumulate_all aggs vs c).
Proof. unfold accumulate_all. now rewrite foldl_app. Qed.

Lemma accumulate_all_count (aggs : Z) (vs : list T) (c : Values T) :
  0 <= count c -> count c + Z.of_nat (length vs) <= INT64_MAX ->
  count (accumulate_all aggs vs c) = count c + Z.of_nat (length vs).
Proof.
  induction vs as [| v vs IH] using rev_ind; intros Hc Hmax.
  - simpl. lia.
  - rewrite length_app in *. cbn [length] in *.
    rewrite accumulate_all_snoc, count_accumulate_succ; rewrite IH; lia.
Qed.

(** Below the threshold a FixedCountStat only accumulates. *)
Lemma fixed_add_all_accumulates {NM : Naming}
    (vs : list T) (d : FixedCountStat T) (w : World T) :
  0 <= count (current_ (fixed_base d)) ->
  count (current_ (fixed_base d)) + Z.of_nat (length vs)
    < fixed_windowSize_ d ->
  fixed_windowSize_ d <= INT64_MAX ->
  add_all vs d w
  = (tt, mkFixedCountStat
           (set_current (accumulate_all (aggregations_ (fixed_base d)) vs
                                        (current_ (fixed_base d)))
                        (fixed_base d))
           (fixed_windowSize_ d), w).
Proof.
  revert d. induction vs as [| v vs IH]; intros d Hc Hlt Hmax.
  - destruct d as [[n a c p] N]. reflexivity.
  - rewrite length_cons, Nat2Z.inj_succ in *. rewrite add_all_cons.
    rewrite fixed_add_below by lia.
    rewrite final_state_eq, final_world_eq.
    rewrite IH; stat_simpl; rewrite ?count_accumulate_succ; try lia.
    reflexivity.
Qed.

End Fields.

Section Int64Windows.

Lemma wrap64_add_l (a b : Z) : wrap64 (wrap64 a + b) = wrap64 (a + b).
Proof.
  unfold wrap64.
  replace ((a + 2 ^ 63) mod 2 ^ 64 - 2 ^ 63 + b + 2 ^ 63)
    with ((a + 2 ^ 63) mod 2 ^ 64 + b) by lia.
  rewrite Z.add_mod_idemp_l by lia.
  f_equal. f_equal. lia.
Qed.

(** Membership in a list extended at its end. *)
Ltac elem_of_snoc :=
  first [ apply list_elem_of_singleton; reflexivity
        | apply elem_of_app; right; apply list_elem_of_singleton; reflexivity
        | apply elem_of_app; left; assumption ].

(** The sum of a list of integers. *)
Definition total (vs : list Z) : Z := foldr Z.add 0 vs.

Lemma total_snoc (vs : list Z) (v : Z) : total (vs ++ [v]) = total vs + v.
Proof. unfold total. induction vs as [| x vs IH]; simpl; lia. Qed.

(** What an [int64_t] window holds after the observations [vs]. *)
Lemma accumulate_all_int64 (aggs : Z) (vs : list Z) :
  Z.of_nat (length vs) <= INT64_MAX ->
  let c := accumulate_all aggs vs Values_init in
  (bitset.test aggs MEAN || bitset.test aggs SUM = true ->
     sum c = wrap64 (total vs))
  /\ (bitset.test aggs MAX = true -> vs <> [] ->
        max c ∈ vs /\ forall x, x ∈ vs -> x <= max c)
  /\ (bitset.test aggs MIN = true -> vs <> [] ->
        min c ∈ vs /\ forall x, x ∈ vs -> min c <= x)
  /\ (bitset.test aggs VALUE = true -> vs <> [] -> last vs = Some (value c)).
Proof.
  induction vs as [| v vs IH] using rev_ind; intros Hlen c; subst c.
  - repeat split; congruence.
  - rewrite length_app in Hlen. cbn [length] in Hlen.
    destruct IH as (IHsum & IHmax & IHmin & IHval); [lia |].
    pose proof (accumulate_all_count aggs vs Values_init) as Hcount.
    cbn [count Values_init] in Hcount.
    rewrite Z.add_0_l in Hcount. specialize (Hcount ltac:(lia) ltac:(lia)).
    rewrite accumulate_all_snoc.
    destruct (accumulate_fields aggs v (accumulate_all aggs vs Values_init))
      as (Hv & Hs & Hmx & Hmn).
    rewrite Hv, Hs, Hmx, Hmn, Hcount. clear Hv Hs Hmx Hmn.
    assert (Hempty : (Z.of_nat (length vs) =? 0) = true -> vs = []).
    { intros Hz. apply Z.eqb_eq in Hz. destruct vs; [reflexivity |].
      simpl in Hz. lia. }
    split; [| split; [| split]].
    + intros Hsel. rewrite Hsel, (IHsum Hsel), total_snoc. simpl.
      apply wrap64_add_l.
    + intros Hsel _. rewrite Hsel. cbn [andb T_lt Int64].
      destruct (Z.of_nat (length vs) =? 0) eqn:Hz.
      * rewrite orb_true_r. rewrite (Hempty eq_refl). simpl.
        split; [elem_of_snoc |]. intros x Hx.
        apply list_elem_of_singleton in Hx. lia.
      * rewrite orb_false_r.
        assert (Hne : vs <> []) by (intros ->; discriminate).
        destruct (IHmax Hsel Hne) as [Hin Hub].
        destruct (Z.ltb_spec (max (accumulate_all aggs vs Values_init)) v).
        -- split; [elem_of_snoc |]. intros x Hx.
           apply elem_of_app in Hx as [Hx | Hx].
           ++ specialize (Hub x Hx). lia.
           ++ apply list_elem_of_singleton in Hx. lia.
        -- split; [elem_of_snoc |]. intros x Hx.
           apply elem_of_app in Hx as [Hx | Hx].
           ++ exact (Hub x Hx).
           ++ apply list_elem_of_singleton in Hx. lia.
    + intros Hsel _. rewrite Hsel. cbn [andb T_lt Int64].
      destruct (Z.of_nat (length vs) =? 0) eqn:Hz.
      * rewrite orb_true_r. rewrite (Hempty eq_refl). simpl.
        split; [elem_of_snoc |]. intros x Hx.
        apply list_elem_of_singleton in Hx. lia.
      * rewrite orb_false_r.
        assert (Hne : vs <> []) by (intros ->; discriminate).
        destruct (IHmin Hsel Hne) as [Hin Hlb].
        destruct (Z.ltb_spec v (min (accumulate_all aggs vs Values_init))).
        -- split; [elem_of_snoc |]. intros x Hx.
           apply elem_of_app in Hx as [Hx | Hx].
           ++ specialize (Hlb x Hx). lia.
           ++ apply list_elem_of_singleton in Hx. lia.
        -- split; [elem_of_snoc |]. intros x Hx.
           apply elem_of_app in Hx as [Hx | Hx].
           ++ exact (Hlb x Hx).
           ++ apply list_elem_of_singleton in Hx. lia.
    + intros Hsel _. rewrite Hsel. now rewrite last_snoc.
Qed.

End Int64Windows.

Lemma total_between (vs : list Z) (lo hi : Z) :
  (forall x, x ∈ vs -> lo <= x <= hi) ->
  Z.of_nat (length vs) * lo <= total vs <= Z.of_nat (length vs) * hi.
Proof.
  induction vs as [| v vs IH]; intros Hb; [simpl; lia |].
  assert (Hv : lo <= v <= hi) by (apply Hb; left).
  assert (Hrest : forall x, x ∈ vs -> lo <= x <= hi)
    by (intros x Hx; apply Hb; now right).
  specialize (IH Hrest). rewrite length_cons, Nat2Z.inj_succ.
  unfold total in *. cbn [foldr]. lia.
Qed.

(** The truncated mean of values between [lo] and [hi] lies between
    them. *)
Lemma quot_between (t n lo hi : Z) :
  0 < n -> n * lo <= t <= n * hi -> lo <= t ÷ n <= hi.
Proof.
  intros Hn Ht. destruct (Z.le_gt_cases 0 t) as [Hpos | Hneg].
  - rewrite Z.quot_div_nonneg by lia. split.
    + apply Z.div_le_lower_bound; lia.
    + apply Z.div_le_upper_bound; lia.
  - assert (Hq : t ÷ n = - ((- t) / n)).
    { rewrite <- (Z.opp_involutive t) at 1.
      rewrite Z.quot_opp_l by lia.
      now rewrite Z.quot_div_nonneg by lia. }
    rewrite Hq.
    assert (- hi <= (- t) / n) by (apply Z.div_le_lower_bound; lia).
    assert ((- t) / n <= - lo) by (apply Z.div_le_upper_bound; lia).
    lia.
Qed.

Lemma add_all_no_close_current
    {T : Type} {NT : Numeric T}
    {D : Type} {DD : Derived D} {SC : StatClass D} {CP : ClosingPolicy D}
    (vs : list T) (d : D) (w : World T) :
  trace (final_world (add_all vs d w)) = trace w ->
  current_ (base (final_state (add_all vs d w)))
  = accumulate_all (aggregations_ (base d)) vs (current_ (base d)).
Proof.
  revert d w. induction vs as [| v vs IH]; intros d w Hno.
  - reflexivity.
  - rewrite add_all_cons in *.
    destruct (add_cases v d w)
      as (c0 & t0 & t1 & Htr & _ & Haggs & Hpre & Hpost). cbv zeta in Hpost.
    destruct (add_all_trace vs (final_state (add v d w))
                            (final_world (add v d w))) as [t Ht].
    rewrite Ht, Htr, <- !app_assoc in Hno.
    rewrite <- (app_nil_r (trace w)) in Hno at 2.
    apply app_inv_head in Hno.
    apply app_eq_nil in Hno as [Ht0 Hno].
    apply app_eq_nil in Hno as [Ht1 Htnil].
    destruct Hpre as [[-> _] | [_ [t' Ht']]]; [| congruence].
    destruct Hpost as [(Hcur & _) | (_ & _ & [t' Ht'])]; [| congruence].
    rewrite IH by (rewrite Ht, Htnil, app_nil_r; reflexivity).
    rewrite Haggs, Hcur. reflexivity.
Qed.

(** X12: the open window of a [Stat<int64_t>] holds the statistics of
    the observations made since it was opened: after the [add] calls
    [vs] on a fresh window, none of which closed it, the counter is the
    number of calls; with SUM or MEAN selected the sum is the
    two's-complement sum of [vs]; with MAX (MIN) selected the maximum
    (minimum) is the greatest (least) element of [vs]; with VALUE
    selected the value is the last element of [vs]. *)
Theorem open_window_statistics
    {D : Type} {DD : Derived (T := Z) D} {SC : StatClass D}
    {CP : ClosingPolicy D}
    (vs : list Z) (d : D) (w : World Z) :
  current_ (base d) = Values_init ->
  Z.of_nat (length vs) <= INT64_MAX ->
  trace (final_world (add_all vs d w)) = trace w ->
  let aggs := aggregations_ (base d) in
  let c := current_ (base (final_state (add_all vs d w))) in
  count c = Z.of_nat (length vs)
  /\ (bitset.test aggs MEAN || bitset.test aggs SUM = true ->
        sum c = wrap64 (total vs))
  /\ (bitset.test aggs MAX = true -> vs <> [] ->
        max c ∈ vs /\ forall x, x ∈ vs -> x <= max c)
  /\ (bitset.test aggs MIN = true -> vs <> [] ->
        min c ∈ vs /\ forall x, x ∈ vs -> min c <= x)
  /\ (bitset.test aggs VALUE = true -> vs <> [] -> last vs = Some (value c)).
Proof.
  intros Hfresh Hlen Hno aggs c. subst aggs c.
  rewrite (add_all_no_close_current vs d w Hno), Hfresh.
  split.
  - rewrite accumulate_all_count; cbn [count Values_init]; lia.
  - exact (accumulate_all_int64 (aggregations_ (base d)) vs Hlen).
Qed.

Lemma open_window_statistics_witness :
  let d : IntervalStat Z :=
    mkIntervalStat
      (mkStat "latency" (merge [MAX; MIN]) Values_init Values_init) 0 1000 in
  let r := add_all (SC := IntervalStat_class (NM := lowercase_names))
                   [5; -2; 9] d still_world in
  (current_ (base d) = Values_init
   /\ Z.of_nat (length [5; -2; 9]) <= INT64_MAX
   /\ trace (final_world r) = trace still_world)
  /\ count (current_ (base (final_state r))) = 3.
Proof.
  assert (Hlen : Z.of_nat (length [5; -2; 9]) <= INT64_MAX)
    by (vm_compute; discriminate).
  split; [split; [reflexivity | split; [exact Hlen | reflexivity]] |].
  exact (proj1 (open_window_statistics
                  (CP := IntervalStat_closing (NM := lowercase_names))
                  [5; -2; 9]
                  (mkIntervalStat
                     (mkStat "latency" (merge [MAX; MIN])
                             Values_init Values_init) 0 1000)
                  still_world eq_refl Hlen eq_refl)).
Defined.

(** X13: a fresh [FixedCountStat<int64_t>] with threshold [N >= 1],
    given the [N] observations [vs] whose sum fits [int64_t]: [get()]
    then reports, for the selected kinds, COUNT [N], SUM the sum of
    [vs], MEAN the sum divided by [N] rounding towards zero, MAX and MIN
    the greatest and the least element of [vs], and VALUE the last
    one. The mean so reported lies between any two bounds of the
    observations, so between the reported MIN and MAX. *)
Theorem fixed_count_snapshot_statistics
    {NM : Naming} (N : Z) (d : FixedCountStat Z) (w : World Z)
    (vs : list Z) :
  1 <= N <= INT64_MAX ->
  fixed_windowSize_ d = N ->
  current_ (fixed_base d) = Values_init ->
  Z.of_nat (length vs) = N ->
  in_int64 (total vs) ->
  let aggs := aggregations_ (fixed_base d) in
  let r := add_all vs d w in
  let got := result (upcast Stat_get (final_state r) (final_world r)) in
  (bitset.test aggs COUNT = true -> got !! COUNT = Some N)
  /\ (bitset.test aggs SUM = true -> got !! SUM = Some (total vs))
  /\ (bitset.test aggs MEAN = true -> got !! MEAN = Some (total vs ÷ N))
  /\ (bitset.test aggs MAX = true ->
        exists m, got !! MAX = Some m
                  /\ m ∈ vs /\ forall x, x ∈ vs -> x <= m)
  /\ (bitset.test aggs MIN = true ->
        exists m, got !! MIN = Some m
                  /\ m ∈ vs /\ forall x, x ∈ vs -> m <= x)
  /\ (bitset.test aggs VALUE = true -> got !! VALUE = last vs)
  /\ (forall lo hi, (forall x, x ∈ vs -> lo <= x <= hi) ->
        lo <= total vs ÷ N <= hi).
Proof.
  intros HN Hsize Hfresh Hlen Htotal aggs r got.
  assert (Hmean : forall lo hi, (forall x, x ∈ vs -> lo <= x <= hi) ->
                    lo <= total vs ÷ N <= hi).
  { intros lo hi Hb. apply quot_between; [lia |].
    rewrite <- Hlen. now apply total_between. }
  revert Hmean.
  assert (Hne : vs <> []) by (intros ->; simpl in Hlen; lia).
  destruct vs as [| v vs _] using rev_ind; [congruence |].
  rewrite length_app in Hlen. cbn [length] in Hlen.
  assert (Hr : r = (tt, mkFixedCountStat
                          (close_state
                             (set_current
                                (accumulate_all aggs (vs ++ [v]) Values_init)
                                (fixed_base d))) N,
                    close_world
                      (set_current
                         (accumulate_all aggs (vs ++ [v]) Values_init)
                         (fixed_base d)) w)).
  { subst r. rewrite add_all_app.
    rewrite (fixed_add_all_accumulates vs d w)
      by (rewrite ?Hfresh; cbn [count Values_init]; lia).
    rewrite final_state_eq, final_world_eq, add_all_cons.
    assert (Hcount : count (accumulate_all aggs vs Values_init)
                     = Z.of_nat (length vs)).
    { rewrite accumulate_all_count; cbn [count Values_init]; lia. }
    rewrite fixed_add_reach
      by (stat_simpl; rewrite ?Hfresh; fold aggs; rewrite ?Hcount; lia).
    rewrite final_state_eq, final_world_eq. unfold add_all, ret.
    stat_simpl. rewrite Hfresh, Hsize. fold aggs.
    rewrite accumulate_all_snoc. reflexivity. }
  subst got. rewrite Hr, final_state_eq, final_world_eq.
  unfold upcast, Stat_get, gets, result. stat_simpl. cbn [fst].
  set (c := accumulate_all aggs (vs ++ [v]) Values_init).
  assert (Hlen' : Z.of_nat (length (vs ++ [v])) <= INT64_MAX)
    by (rewrite length_app; cbn [length]; lia).
  destruct (accumulate_all_int64 aggs (vs ++ [v]) Hlen')
    as (Hsum & Hmax & Hmin & Hval). fold c in Hsum, Hmax, Hmin, Hval.
  assert (Hcount : count c = N).
  { subst c. rewrite accumulate_all_count; cbn [count Values_init];
      rewrite ?length_app; cbn [length]; lia. }
  assert (Hlook : forall k,
             getLocked (mkStat (name_ (fixed_base d)) aggs Values_init c) !! k
             = if bitset.test aggs k then finalize c k else None).
  { intros k. apply getLocked_lookup. }
  assert (HwN : wrap64 N = N)
    by (apply wrap64_id; unfold in_int64, INT64_MIN, INT64_MAX in *; lia).
  intros Hmean.
  split; [| split; [| split; [| split; [| split; [| split]]]]];
    [| | | | | | exact Hmean].
  - intros Hsel. rewrite Hlook, Hsel. cbn [finalize T_of_int Int64].
    now rewrite Hcount, HwN.
  - intros Hsel. rewrite Hlook, Hsel. cbn [finalize].
    rewrite Hsum by (rewrite Hsel; apply orb_true_r).
    now rewrite wrap64_id.
  - intros Hsel. rewrite Hlook, Hsel. cbn [finalize T_of_int T_div Int64].
    rewrite Hcount, (proj2 (Z.eqb_neq N 0)) by lia.
    rewrite Hsum by (rewrite Hsel; reflexivity).
    rewrite HwN, (wrap64_id (total (vs ++ [v]))) by exact Htotal.
    f_equal. apply wrap64_id. apply quot_in_int64; [exact Htotal | lia].
  - intros Hsel. exists (max c). rewrite Hlook, Hsel.
    split; [reflexivity | exact (Hmax Hsel Hne)].
  - intros Hsel. exists (min c). rewrite Hlook, Hsel.
    split; [reflexivity | exact (Hmin Hsel Hne)].
  - intros Hsel. rewrite Hlook, Hsel. cbn [finalize].
    symmetry. exact (Hval Hsel Hne).
Qed.

Lemma fixed_count_snapshot_statistics_witness :
  let d : FixedCountStat Z :=
    mkFixedCountStat
      (mkStat "latency" (merge [MEAN; MAX]) Values_init Values_init) 3 in
  let r := add_all (SC := FixedCountStat_class (NM := lowercase_names))
                   [5; -9; 2] d still_world in
  (1 <= 3 <= INT64_MAX
   /\ fixed_windowSize_ d = 3
   /\ current_ (fixed_base d) = Values_init
   /\ Z.of_nat (length [5; -9; 2]) = 3
   /\ in_int64 (total [5; -9; 2])
   /\ bitset.test (aggregations_ (fixed_base d)) MEAN = true)
  /\ result (upcast Stat_get (final_state r) (final_world r)) !! MEAN
     = Some 0.
Proof.
  assert (HN : 1 <= 3 <= INT64_MAX) by (vm_compute; split; discriminate).
  assert (Ht : in_int64 (total [5; -9; 2]))
    by (vm_compute; split; discriminate).
  split; [repeat split; assumption || exact (proj1 HN) || exact (proj2 HN)
                        || exact (proj1 Ht) || exact (proj2 Ht) |].
  exact (proj1 (proj2 (proj2
           (fixed_count_snapshot_statistics (NM := lowercase_names) 3
              (mkFixedCountStat
                 (mkStat "latency" (merge [MEAN; MAX])
                         Values_init Values_init) 3)
              still_world [5; -9; 2] HN eq_refl eq_refl eq_refl Ht)))
           eq_refl).
Defined.
